(** * joovy: session routing, seek parsing and the persistence layer

    A shallow embedding of the TypeScript sources
    - [src/connectionHandler.ts]     (initMsgHandler, initCmdObserver),
    - [src/command/impl/Seek.ts]     (Seek.handleMessage),
    - the repository module          (trackPlaylist, backupV1, restoreV1),
    - [player/Player.ts]             (PlayerImpl.disconnect),
    together with the properties the specification states about them. *)

From stdpp Require Import base gmap list strings.
From Stdlib Require Import ZArith String Ascii Lia.

Local Open Scope string_scope.
Local Open Scope list_scope.
Local Open Scope Z_scope.

(** ** JavaScript primitives used by the sources *)

Module JS.

(** [s.startsWith(p)] *)
Definition startsWith (s p : string) : bool := String.prefix p s.

(** [s.split(sep)] for a non-empty separator.  The scan walks the string
    once; [skip] counts the characters of a separator occurrence that are
    still to be passed over, [cur] is the piece being collected (reversed). *)
Fixpoint split_go (sep s : string) (skip : nat) (cur : string) : list string :=
  match s with
  | EmptyString => [String.rev cur]
  | String c s' =>
      match skip with
      | S k => split_go sep s' k cur
      | O =>
          if String.prefix sep s
          then String.rev cur :: split_go sep s' (Nat.pred (String.length sep)) EmptyString
          else split_go sep s' O (String c cur)
      end
  end.

Definition split (s sep : string) : list string := split_go sep s O EmptyString.

(** Numbers.  A JavaScript number is a double; the model tracks the integers
    that doubles represent exactly (magnitude at most 2^53) and NaN.  Every
    other double is [JUntracked]: the model says nothing about its value. *)
Inductive Num :=
| JInt (z : Z)
| JNaN
| JUntracked.

Definition safe : Z := 2 ^ 53.

Definition of_Z (z : Z) : Num :=
  if (Z.abs z <=? safe) then JInt z else JUntracked.

Definition mul (a b : Num) : Num :=
  match a, b with
  | JNaN, _ | _, JNaN => JNaN
  | JInt x, JInt y => of_Z (x * y)
  | _, _ => JUntracked
  end.

Definition add (a b : Num) : Num :=
  match a, b with
  | JNaN, _ | _, JNaN => JNaN
  | JInt x, JInt y => of_Z (x + y)
  | _, _ => JUntracked
  end.

Definition is_digit (c : ascii) : bool :=
  let n := nat_of_ascii c in (48 <=? n)%nat && (n <=? 57)%nat.

Definition digit_val (c : ascii) : Z := Z.of_nat (nat_of_ascii c) - 48.

Fixpoint all_digits (s : string) : bool :=
  match s with
  | EmptyString => true
  | String c s' => is_digit c && all_digits s'
  end.

(** Value of a string of decimal digits, most significant first. *)
Fixpoint digits_val (acc : Z) (s : string) : Z :=
  match s with
  | EmptyString => acc
  | String c s' => digits_val (10 * acc + digit_val c) s'
  end.

(** The white space [Number] strips (the ASCII part of StrWhiteSpaceChar). *)
Definition is_space (c : ascii) : bool :=
  let n := nat_of_ascii c in
  (n =? 32)%nat || ((9 <=? n)%nat && (n <=? 13)%nat).

Fixpoint trim_left (s : string) : string :=
  match s with
  | String c s' => if is_space c then trim_left s' else s
  | EmptyString => EmptyString
  end.

Definition trim (s : string) : string :=
  String.rev (trim_left (String.rev (trim_left s))).

(** [Number(s)] for a string [s]: white space is stripped, the empty string is
    0, a string of decimal digits is its value; signs, fractions, exponents,
    hexadecimal and the like are outside the tracked fragment. *)
Definition Number_string (s : string) : Num :=
  let t := trim s in
  if all_digits t then of_Z (digits_val 0 t) else JUntracked.

(** [Number(x)] where [x] may be [undefined] ([None]): [Number(undefined)] is NaN. *)
Definition Number (x : option string) : Num :=
  match x with
  | None => JNaN
  | Some s => Number_string s
  end.

(** [c] does not occur in [s]. *)
Fixpoint free_of (c : ascii) (s : string) : bool :=
  match s with
  | EmptyString => true
  | String a s' => negb (Ascii.eqb a c) && free_of c s'
  end.

(** Truthiness of a possibly undefined string. *)
Definition truthy (x : option string) : bool :=
  match x with
  | None => false
  | Some EmptyString => false
  | Some _ => true
  end.

End JS.

(** ** [Seek.handleMessage] (src/command/impl/Seek.ts) and the [/seek] branch
    of the command observer (src/connectionHandler.ts, lines 168-179) *)

Module Seek.

(** The value handed to [env.seek.next], if any: lines 16-26 of Seek.ts and
    lines 169-179 of connectionHandler.ts are the same text. *)
Definition seek_offset (content : string) : option JS.Num :=
  let seek := JS.split content "/seek " !! 1%nat in
  if JS.truthy seek then
    let splitSeek := JS.split (default EmptyString seek) ":" in
    if (1 <? List.length splitSeek)%nat then
      let minutes := JS.Number (splitSeek !! 0%nat) in
      let seconds := JS.Number (splitSeek !! 1%nat) in
      Some (JS.add (JS.mul minutes (JS.JInt 60)) seconds)
    else Some (JS.Number seek)
  else None.

(** [handleMessage]: the boolean result and the emission on [env.seek]. *)
Definition handleMessage (content : string) : bool * option JS.Num :=
  if negb (JS.startsWith content "/seek") then (false, None)
  else (true, seek_offset content).

End Seek.

(** ** The message handler (src/connectionHandler.ts) *)

Module CH.

(** The part of a discord.js [Message] the handler reads. *)
Record Message := {
  author_bot : bool;              (* message.author.bot *)
  content : string;               (* message.content *)
  voice_channel : option string;  (* message.member?.voice.channel?.id *)
  text_channel : string;          (* message.channel, where replies go *)
}.

(** The subjects of [Environment], in the order of the object literal of
    [initEnvironment], which is the order [Object.values(env)] visits them. *)
Inductive EnvKey :=
| sendMessage | currentlyPlaying | nextItemInPlaylist | addItemToQueue
| addNextItemToQueue | printQueueRequest | removeFromQueue | disconnect
| setBassLevel | seek.

#[global] Instance EnvKey_eq_dec : EqDecision EnvKey.
Proof. solve_decision. Defined.

Definition env_keys : list EnvKey :=
  [sendMessage; currentlyPlaying; nextItemInPlaylist; addItemToQueue;
   addNextItemToQueue; printQueueRequest; removeFromQueue; disconnect;
   setBassLevel; seek].

(** What [QueryResolver.resolve] yields for a found track. *)
Record Item := { name : string; link : string }.

(** Values pushed through the subjects of the environment. *)
Inductive Payload :=
| PNull
| PNum (n : JS.Num)
| PRemove (from to : JS.Num)
| PItem (i : Item).

(** The observable actions of the handler, in program order. *)
Inductive Effect :=
| LogInfo (text : string)
| LogError (text : string)
| ChannelSend (chan text : string)         (* message.channel.send, embed with description *)
| ChannelSendHelp (chan : string)          (* printHelp *)
| SubjectCreated (sid : nat) (channelId : string)   (* new Subject, msgObservers.set *)
| PlaylistInit (sid : nat)                 (* ObservablePlaylist.init(env) *)
| PlayerInit (sid : nat)                   (* Player.init({message, env}) called *)
| ResolveStarted (sid rid : nat)           (* QueryResolver.resolve called *)
| Delivered (sid : nat) (k : EnvKey) (p : Payload)
    (* env.k.next(p) reached the subscribers that ObservablePlaylist.init and
       Player.init registered *)
| PlayerStop (sid : nat)                   (* PlayerImpl.disconnect: this.player.stop() *)
| ConnectionDisconnect (sid : nat)         (* PlayerImpl.disconnect: this.connection.disconnect() *)
| SubjectCompleted (sid : nat) (k : EnvKey)
| ObserverUnsubscribed (sid : nat)         (* observer.unsubscribe() *)
| ChannelObserverCompleted (sid : nat)     (* channelObserver.complete() *)
| RegistryDeleted (sid : nat) (channelId : string)  (* msgObservers.delete *)
| UnhandledRejection (text : string).

(** [initCmdObserver] awaits [Player.init]; until that promise resolves the
    command observer of line 144 is not subscribed. *)
Inductive Phase := Initializing | Wired.

(** One per-channel Subject with everything [initCmdObserver] hangs on it. *)
Record Session := {
  first_message : Message;    (* the [message] initCmdObserver closes over *)
  channelId : string;         (* v.channelId, captured by the unsubscribe closure *)
  phase : Phase;
  completed : list EnvKey;    (* the subjects of env that are stopped *)
  observer_closed : bool;     (* observer.unsubscribe() has run *)
  channel_stopped : bool;     (* channelObserver.complete() has run *)
  player_connected : bool;    (* the player of Player.init holds a connection *)
}.

(** A call of [QueryResolver.resolve] that has not settled yet. *)
Record Pending := {
  p_sid : nat;          (* the session whose observer made the call *)
  p_next : bool;        (* true for /playnext, false for /play *)
  p_event : Message;
}.

Record State := {
  msgObservers : gmap string nat;         (* the Map of initMsgHandler *)
  subjects : list Session;                (* every Subject created so far *)
  resolving : list (option Pending);      (* calls of the resolver, settled ones are None *)
}.

Definition init : State :=
  {| msgObservers := ∅; subjects := []; resolving := [] |}.

(** What [await QueryResolver.resolve(...)] produces. *)
Inductive Outcome :=
| Found (i : Item)
| NotFound
| Threw (e : string).

(** The environment's moves: a message arrives, [Player.init] resolves, a
    resolver call settles.  [Player.init] is taken to resolve; what happens
    when it rejects is not part of the model. *)
Inductive Event :=
| Inbound (v : Message)
| PlayerInitResolved (sid : nat)
| ResolveSettled (rid : nat) (o : Outcome).

Definition with_subjects (st : State) (l : list Session) : State :=
  {| msgObservers := msgObservers st; subjects := l; resolving := resolving st |}.

Definition with_resolving (st : State) (l : list (option Pending)) : State :=
  {| msgObservers := msgObservers st; subjects := subjects st; resolving := l |}.

Definition with_msgObservers (st : State) (m : gmap string nat) : State :=
  {| msgObservers := m; subjects := subjects st; resolving := resolving st |}.

Definition set_session (st : State) (sid : nat) (s : Session) : State :=
  with_subjects st (<[sid := s]> (subjects st)).

Definition is_stopped (s : Session) (k : EnvKey) : bool :=
  bool_decide (k ∈ completed s).

(** [env.sendMessage.next(text)]: the subscriber of line 75 posts an embed to
    the channel of the session's first message. *)
Definition send (s : Session) (text : string) : list Effect :=
  if is_stopped s sendMessage then []
  else [ChannelSend (text_channel (first_message s)) text].

(** [env.k.next(p)] for a subject only the collaborators listen to. *)
Definition emit (sid : nat) (s : Session) (k : EnvKey) (p : Payload) : list Effect :=
  if is_stopped s k then [] else [Delivered sid k p].

(** [subject.complete()]: a stopped subject ignores it. *)
Definition complete (sid : nat) (k : EnvKey) (acc : Session * list Effect)
  : Session * list Effect :=
  let '(s, effs) := acc in
  if is_stopped s k then (s, effs)
  else ({| first_message := first_message s; channelId := channelId s;
           phase := phase s; completed := completed s ++ [k];
           observer_closed := observer_closed s;
           channel_stopped := channel_stopped s;
           player_connected := player_connected s |},
        effs ++ [SubjectCompleted sid k]).

(** Lines 201-205: [Object.values(env).forEach(... envValue.complete())]. *)
Definition complete_all (sid : nat) (s : Session) : Session * list Effect :=
  foldl (fun acc k => complete sid k acc) (s, []) env_keys.

(** [PlayerImpl.disconnect] (player/Player.ts): stop the audio player, then
    drop the voice connection. *)
Definition PlayerImpl_disconnect (sid : nat) : list Effect :=
  [PlayerStop sid; ConnectionDisconnect sid].

(** Modelled from the spec: [Player.init] of the connection handler's era is
    not in src.  It is called at line 83, before the subscription of line 199,
    so what it subscribes to [env.disconnect] runs first; per the spec the
    teardown stops pending playback and disconnects the Player, which is what
    [PlayerImpl.disconnect] does. *)
Definition player_on_disconnect (sid : nat) (s : Session) : Session * list Effect :=
  ({| first_message := first_message s; channelId := channelId s;
      phase := phase s; completed := completed s;
      observer_closed := observer_closed s;
      channel_stopped := channel_stopped s;
      player_connected := false |},
   PlayerImpl_disconnect sid).

Definition close_observer (sid : nat) (s : Session) : Session * list Effect :=
  ({| first_message := first_message s; channelId := channelId s;
      phase := phase s; completed := completed s;
      observer_closed := true;
      channel_stopped := channel_stopped s;
      player_connected := player_connected s |},
   if observer_closed s then [] else [ObserverUnsubscribed sid]).

Definition complete_channel (sid : nat) (s : Session) : Session * list Effect :=
  ({| first_message := first_message s; channelId := channelId s;
      phase := phase s; completed := completed s;
      observer_closed := observer_closed s;
      channel_stopped := true;
      player_connected := player_connected s |},
   if channel_stopped s then [] else [ChannelObserverCompleted sid]).

(** The subscriber of lines 199-209. *)
Definition on_disconnect (st : State) (sid : nat) (s : Session) : State * list Effect :=
  let bye := send s "Bye!" in
  let '(s1, e1) := complete_all sid s in
  let '(s2, e2) := close_observer sid s1 in
  let '(s3, e3) := complete_channel sid s2 in
  let st1 := set_session st sid s3 in
  let c := channelId s in
  let e4 := if decide (is_Some (msgObservers st !! c)) then [RegistryDeleted sid c] else [] in
  (with_msgObservers st1 (delete c (msgObservers st)), bye ++ e1 ++ e2 ++ e3 ++ e4).

(** [env.disconnect.next(null)]: the collaborators first, then line 199. *)
Definition next_disconnect (st : State) (sid : nat) (s : Session) : State * list Effect :=
  if is_stopped s disconnect then (st, [])
  else
    let '(s1, e1) := player_on_disconnect sid s in
    let '(st2, e2) := on_disconnect st sid s1 in
    (st2, Delivered sid disconnect PNull :: e1 ++ e2).

(** [env.addItemToQueue.next(item)] and [env.addNextItemToQueue.next(item)]:
    the playlist's subscribers, then the reply of line 85 or 89. *)
Definition next_add (sid : nat) (s : Session) (is_next : bool) (i : Item) : list Effect :=
  let k := if is_next then addNextItemToQueue else addItemToQueue in
  if is_stopped s k then []
  else Delivered sid k (PItem i)
       :: send s (name i +:+ (if is_next then " will be played next."
                             else " has been added to the queue.")).

(** [printHelp], lines 93-142: the embed goes to the channel of the message
    [initCmdObserver] was called with. *)
Definition printHelp (s : Session) : list Effect :=
  [ChannelSendHelp (text_channel (first_message s))].

(** Completion of a block that may throw. *)
Inductive Completion :=
| Normal
| Throws (e : string).

Definition try_catch (body : Completion * list Effect)
    (handler : string -> Completion * list Effect) : Completion * list Effect :=
  match body with
  | (Normal, effs) => (Normal, effs)
  | (Throws e, effs) => let '(c, effs') := handler e in (c, effs ++ effs')
  end.

(** Lines 148-160, from the point where the awaited resolver call settles. *)
Definition addItemToQueue_settled (sid : nat) (s : Session) (p : Pending) (o : Outcome)
  : Completion * list Effect :=
  try_catch
    match o with
    | Threw e => (Throws e, [])
    | Found newItem => (Normal, next_add sid s (p_next p) newItem)
    | NotFound => (Normal, send s ("Unable to find result for: " +:+ content (p_event p)))
    end
    (fun e => (Normal, LogError e :: send s ("Unable to add song to playlist: " +:+ e))).

(** Lines 148-150 up to the await: the resolver is called and the handler
    returns; nothing waits for the promise of [addItemToQueue]. *)
Definition start_resolve (st : State) (sid : nat) (is_next : bool) (v : Message)
  : State * list Effect :=
  (with_resolving st (resolving st ++ [Some {| p_sid := sid; p_next := is_next; p_event := v |}]),
   [ResolveStarted sid (List.length (resolving st))]).

(** The [next] callback of the command observer, lines 145-196. *)
Definition observer_next (st : State) (sid : nat) (s : Session) (v : Message)
  : State * list Effect :=
  let c := content v in
  if JS.startsWith c "/playnext" then start_resolve st sid true v
  else if JS.startsWith c "/play" then start_resolve st sid false v
  else if String.eqb c "/help" then (st, printHelp s)
  else if JS.startsWith c "/seek" then
    (st, match Seek.seek_offset c with
         | Some n => emit sid s seek (PNum n)
         | None => []
         end)
  else if String.eqb c "/skip" then (st, emit sid s nextItemInPlaylist PNull)
  else if JS.startsWith c "/bass" then
    (st, emit sid s setBassLevel (PNum (JS.Number (JS.split c " " !! 1%nat))))
  else if JS.startsWith c "/remove" then
    let removeCmd := JS.split c " " in
    let from := JS.Number (removeCmd !! 1%nat) in
    let to := match removeCmd !! 2%nat with
              | Some x => JS.Number_string x
              | None => from
              end in
    (st, emit sid s removeFromQueue (PRemove from to))
  else if String.eqb c "/queue" then (st, emit sid s printQueueRequest PNull)
  else if String.eqb c "/disconnect" then next_disconnect st sid s
  else (st, send s ("Unknown command: `" +:+ c +:+ "`, type `/help` for available commands.")).

(** [subject.next(v)] on the Subject [sid] of the registry: a stopped Subject
    drops the value, and so does one whose observer is not subscribed (yet, or
    any more). *)
Definition deliver (st : State) (sid : nat) (v : Message) : State * list Effect :=
  match subjects st !! sid with
  | None => (st, [])
  | Some s =>
      if channel_stopped s then (st, [])
      else match phase s with
           | Initializing => (st, [])
           | Wired => if observer_closed s then (st, []) else observer_next st sid s v
           end
  end.

(** Lines 28-40: the two filters and the channel id. *)
Inductive Screened :=
| Ignored
| NoChannel
| Accepted (channelId : string).

Definition screen (v : Message) : Screened :=
  if author_bot v then Ignored
  else if negb (JS.startsWith (content v) "/") then Ignored
  else match voice_channel v with
       | None => NoChannel
       | Some c => if String.eqb c "" then NoChannel else Accepted c
       end.

Definition new_session (v : Message) (c : string) : Session :=
  {| first_message := v; channelId := c; phase := Initializing; completed := [];
     observer_closed := false; channel_stopped := false; player_connected := false |}.

(** Lines 54-59 up to the await inside [initCmdObserver]. *)
Definition bootstrap (st : State) (v : Message) (c : string) : State * list Effect :=
  let sid := List.length (subjects st) in
  ({| msgObservers := <[c := sid]> (msgObservers st);
      subjects := subjects st ++ [new_session v c];
      resolving := resolving st |},
   [SubjectCreated sid c; LogInfo ("Initializing new observer for: " +:+ c);
    PlaylistInit sid; PlayerInit sid]).

(** The subscriber of line 53 for one message of [msgObservable]. *)
Definition initMsgHandler_next (st : State) (v : Message) : State * list Effect :=
  match screen v with
  | Ignored => (st, [])
  | NoChannel =>
      (* lines 34 and 41-50: ErrorWithMessage, answered by catchError, which
         resubscribes to the source *)
      (st, [ChannelSend (text_channel v)
              "Could not determine channel id, are you joined to a voice channel?"])
  | Accepted c =>
      match msgObservers st !! c with
      | Some sid => deliver st sid v
      | None => bootstrap st v c
      end
  end.

(** [Player.init] resolved: lines 85-209 wire the session, then line 61 hands
    the first message to the subject registered for its channel. *)
Definition initCmdObserver_resume (st : State) (sid : nat) : State * list Effect :=
  match subjects st !! sid with
  | None => (st, [])
  | Some s =>
      match phase s with
      | Wired => (st, [])
      | Initializing =>
          let s' := {| first_message := first_message s; channelId := channelId s;
                       phase := Wired; completed := completed s;
                       observer_closed := observer_closed s;
                       channel_stopped := channel_stopped s;
                       player_connected := true |} in
          let st1 := set_session st sid s' in
          match msgObservers st1 !! channelId s with
          | Some sid' => deliver st1 sid' (first_message s)
          | None => (st1, [UnhandledRejection "msgObservers.get(...) is undefined"])
          end
      end
  end.

(** A resolver call settles and [addItemToQueue] runs to its end. *)
Definition on_resolved (st : State) (rid : nat) (o : Outcome) : State * list Effect :=
  match resolving st !! rid with
  | Some (Some p) =>
      let st1 := with_resolving st (<[rid := None]> (resolving st)) in
      match subjects st !! p_sid p with
      | None => (st1, [])
      | Some s =>
          match addItemToQueue_settled (p_sid p) s p o with
          | (Normal, effs) => (st1, effs)
          | (Throws e, effs) => (st1, effs ++ [UnhandledRejection e])
          end
      end
  | _ => (st, [])
  end.

Definition step (st : State) (ev : Event) : State * list Effect :=
  match ev with
  | Inbound v => initMsgHandler_next st v
  | PlayerInitResolved sid => initCmdObserver_resume st sid
  | ResolveSettled rid o => on_resolved st rid o
  end.

(** A run: the state after the events and everything done on the way. *)
Fixpoint run (st : State) (evs : list Event) : State * list Effect :=
  match evs with
  | [] => (st, [])
  | ev :: evs' =>
      let '(st1, e1) := step st ev in
      let '(st2, e2) := run st1 evs' in
      (st2, e1 ++ e2)
  end.

(** A session is live from its creation until [channelObserver.complete()]. *)
Definition live_on (st : State) (c : string) (sid : nat) : bool :=
  match subjects st !! sid with
  | Some s => negb (channel_stopped s) && bool_decide (channelId s = c)
  | None => false
  end.

Definition live_sessions (st : State) (c : string) : list nat :=
  filter (fun sid => live_on st c sid = true) (seq 0 (List.length (subjects st))).

Definition player_on (st : State) (c : string) (sid : nat) : bool :=
  match subjects st !! sid with
  | Some s => player_connected s && bool_decide (channelId s = c)
  | None => false
  end.

Definition live_players (st : State) (c : string) : list nat :=
  filter (fun sid => player_on st c sid = true) (seq 0 (List.length (subjects st))).

(** The steps of a teardown that belong to session [sid]. *)
Definition teardown_step (sid : nat) (e : Effect) : bool :=
  match e with
  | PlayerStop i | ConnectionDisconnect i | SubjectCompleted i _
  | ObserverUnsubscribed i | ChannelObserverCompleted i | RegistryDeleted i _ =>
      bool_decide (i = sid)
  | _ => false
  end.

Definition unhandled (e : Effect) : bool :=
  match e with
  | UnhandledRejection _ => true
  | _ => false
  end.

(** *** Notions the properties are stated with *)

(** A session after its teardown. *)
Definition tear (s : Session) : Session :=
  {| first_message := first_message s; channelId := channelId s; phase := phase s;
     completed := env_keys; observer_closed := true; channel_stopped := true;
     player_connected := false |}.

(** What [env.disconnect.next(null)] does on a session that is wired and live. *)
Definition teardown_trace (sid : nat) (s : Session) : list Effect :=
  [Delivered sid disconnect PNull; PlayerStop sid; ConnectionDisconnect sid;
   ChannelSend (text_channel (first_message s)) "Bye!";
   SubjectCompleted sid sendMessage; SubjectCompleted sid currentlyPlaying;
   SubjectCompleted sid nextItemInPlaylist; SubjectCompleted sid addItemToQueue;
   SubjectCompleted sid addNextItemToQueue; SubjectCompleted sid printQueueRequest;
   SubjectCompleted sid removeFromQueue; SubjectCompleted sid disconnect;
   SubjectCompleted sid setBassLevel; SubjectCompleted sid seek;
   ObserverUnsubscribed sid; ChannelObserverCompleted sid;
   RegistryDeleted sid (channelId s)].

(** Torn down: nothing of the session can act again. *)
Definition torn (s : Session) : Prop :=
  phase s = Wired ∧ observer_closed s = true ∧ channel_stopped s = true ∧
  player_connected s = false ∧ ∀ k, is_stopped s k = true.

(** The registry and the subjects agree: a registered subject is live and
    registered under its own channel, a live subject is the one registered for
    its channel and nothing of it has been completed, a stopped one is torn
    down. *)
Record Inv (st : State) : Prop := {
  inv_registry : ∀ c sid, msgObservers st !! c = Some sid →
    ∃ s, subjects st !! sid = Some s ∧ channelId s = c ∧ channel_stopped s = false;
  inv_live : ∀ sid s, subjects st !! sid = Some s → channel_stopped s = false →
    msgObservers st !! channelId s = Some sid ∧ completed s = [] ∧
    observer_closed s = false ∧ (player_connected s = true → phase s = Wired);
  inv_torn : ∀ sid s, subjects st !! sid = Some s → channel_stopped s = true → torn s;
}.

(** A wired, live session and a message for it, to run the handler on. *)
Definition sample_msg (text : string) : Message :=
  {| author_bot := false; content := text; voice_channel := Some "c";
     text_channel := "t" |}.

Definition sample_session : Session :=
  {| first_message := sample_msg "/play x"; channelId := "c"; phase := Wired;
     completed := []; observer_closed := false; channel_stopped := false;
     player_connected := true |}.

(** The [/disconnect] of the failing scenario: a member of voice channel c
    writing in text channel t. *)
(** A first [/play] on channel c, and the player becoming ready. *)
Definition played : list Event := [Inbound (sample_msg "/play x"); PlayerInitResolved 0].

Definition bot_msg : Message :=
  {| author_bot := true; content := "/play x"; voice_channel := Some "c";
     text_channel := "t" |}.

Definition disconnect_msg : Message :=
  {| author_bot := false; content := "/disconnect"; voice_channel := Some "c";
     text_channel := "t" |}.

End CH.

(** ** JSON values and the JavaScript operations the repository applies to them *)

Module Json.

#[local] Unset Elimination Schemes.
Inductive json :=
| JNull
| JBool (b : bool)
| JNum (z : Z)
| JStr (s : string)
| JArr (l : list json)
| JObj (fields : list (string * json)).
#[local] Set Elimination Schemes.

Inductive JsError :=
| SyntaxError (text : string)     (* JSON.parse *)
| TypeError (text : string)       (* property access on null or undefined, spread of a non-iterable *)
| Error (text : string)           (* throw Error(...) *)
| StoreError (text : string).     (* the store's observable errors *)

(** A computation that returns or throws. *)
Inductive Res (A : Type) :=
| Ok (a : A)
| Raise (e : JsError).
Arguments Ok {A} a.
Arguments Raise {A} e.

Definition bind {A B} (r : Res A) (k : A -> Res B) : Res B :=
  match r with
  | Ok a => k a
  | Raise e => Raise e
  end.

Fixpoint assoc (f : string) (fields : list (string * json)) : option json :=
  match fields with
  | [] => None
  | (k, v) :: rest => if String.eqb k f then Some v else assoc f rest
  end.

(** [x.f] where [x] may be undefined ([None]); the result may be undefined.
    None of the names the repository reads ([meta], [name], [playlists]) is a
    property of arrays, strings, numbers or booleans. *)
Definition get_prop (x : option json) (f : string) : Res (option json) :=
  match x with
  | None => Raise (TypeError ("Cannot read properties of undefined (reading '" +:+ f +:+ "')"))
  | Some JNull => Raise (TypeError ("Cannot read properties of null (reading '" +:+ f +:+ "')"))
  | Some (JObj fields) => Ok (assoc f fields)
  | Some _ => Ok None
  end.

(** An own property keeps its place when it is overwritten, a new one goes last. *)
Fixpoint set_field (f : string) (v : json) (fields : list (string * json))
  : list (string * json) :=
  match fields with
  | [] => [(f, v)]
  | (k, w) :: rest =>
      if String.eqb k f then (k, v) :: rest else (k, w) :: set_field f v rest
  end.

(** [x.f = v] in strict mode, as far as JSON.stringify can tell afterwards: a
    named property put on an array is not serialized. *)
Definition set_prop (x : json) (f : string) (v : json) : Res json :=
  match x with
  | JObj fields => Ok (JObj (set_field f v fields))
  | JArr l => Ok (JArr l)
  | JNull => Raise (TypeError ("Cannot set properties of null (setting '" +:+ f +:+ "')"))
  | _ => Raise (TypeError ("Cannot create property '" +:+ f +:+ "'"))
  end.

Fixpoint chars (s : string) : list json :=
  match s with
  | EmptyString => []
  | String c s' => JStr (String c EmptyString) :: chars s'
  end.

(** [[...x]]: arrays and strings are iterable, nothing else in JSON is. *)
Definition spread (x : option json) : Res (list json) :=
  match x with
  | Some (JArr l) => Ok l
  | Some (JStr s) => Ok (chars s)
  | _ => Raise (TypeError "value is not iterable")
  end.

(** [x === 'tag'] *)
Definition is_string (x : option json) (tag : string) : bool :=
  match x with
  | Some (JStr s) => String.eqb s tag
  | _ => false
  end.

End Json.

(** ** The repository module: trackPlaylist, backupV1, restoreV1 *)

Module Repo.
Import Json.

(** [enum Type] and [enum Version]. *)
Definition Type_Channel : string := "channel".
Definition Type_Playlist : string := "playlist".
Definition Type_Track : string := "track".
Definition Type_Author : string := "author".
Definition Version_v1 : string := "1".

Definition meta (name : string) : json :=
  JObj [("name", JStr name); ("version", JStr Version_v1)].

(** [player/Track] as [trackToTrackV1] reads it: the four fields it copies.
    Whatever else a track of the queue holds is not persisted and is not
    modelled. *)
Record Track := {
  author_id : string;
  author_username : string;
  track_name : string;
  track_link : string;
}.

Definition trackToTrackV1 (track : Track) : json :=
  JObj [("meta", meta Type_Track);
        ("author", JObj [("meta", meta Type_Author);
                         ("id", JStr (author_id track));
                         ("username", JStr (author_username track))]);
        ("name", JStr (track_name track));
        ("link", JStr (track_link track))].

(** What [trackPlaylist] reads of its [JEvent]. *)
Record JEvent := {
  message_channelId : string;   (* event.message.channelId *)
  timestamp : Z;                (* event.timestamp *)
  factory_uuid : string;        (* the value event.factory.uuid() returns *)
}.

(** [ChannelRepository.defaultEntity] and [PlaylistRepository.defaultEntity]. *)
Definition channel_defaultEntity : json :=
  JObj [("meta", meta Type_Channel); ("playlists", JArr [])].

Definition playlist_defaultEntity (event : JEvent) : json :=
  JObj [("meta", meta Type_Playlist); ("date", JNum (timestamp event)); ("tracks", JArr [])].

(** [isChannel] and [isPlaylist]: [item.meta.name === Type.X]. *)
Definition has_type (tag : string) (item : json) : Res bool :=
  bind (get_prop (Some item) "meta") (fun m =>
  bind (get_prop m "name") (fun n => Ok (is_string n tag))).

Definition isChannel : json -> Res bool := has_type Type_Channel.
Definition isPlaylist : json -> Res bool := has_type Type_Playlist.

(** Modelled from the spec: the store ([store/impl/LevelStore], [StringStore])
    is not in src.  It is a key/value store of strings; [get] of an absent key
    completes without a value (which is what [defaultIfEmpty] in [getOrCreate]
    relies on), [put] overwrites, and any operation may fail.  [faults] says
    which of the coming operations fail, one flag per operation, none once the
    list is used up; [writes] logs the puts that went through. *)
Record Store := {
  data : gmap string string;
  faults : list bool;
  writes : list (string * string);
}.

(** Modelled from the spec: [getOrCreateStore] and [store.backup()] are not in
    src.  The backup is a full store scan: [store.backup()] emits every record
    of the store once. *)
Definition store_backup (store : gmap string string) : list (string * string) :=
  map_to_list store.

Definition M (A : Type) : Type := Store -> Res A * Store.

Definition ret {A} (a : A) : M A := fun st => (Ok a, st).
Definition raise {A} (e : JsError) : M A := fun st => (Raise e, st).
Definition mbind {A B} (m : M A) (k : A -> M B) : M B :=
  fun st => match m st with
            | (Ok a, st1) => k a st1
            | (Raise e, st1) => (Raise e, st1)
            end.
Definition lift {A} (r : Res A) : M A := fun st => (r, st).

Notation "x <- m ;; k" := (mbind m (fun x => k))
  (at level 100, m at next level, right associativity).

(** One store operation begins: does it fail? *)
Definition attempt (what : string) : M unit := fun st =>
  match faults st with
  | true :: rest =>
      (Raise (StoreError what), {| data := data st; faults := rest; writes := writes st |})
  | false :: rest =>
      (Ok tt, {| data := data st; faults := rest; writes := writes st |})
  | [] => (Ok tt, st)
  end.

Definition store_get (key : string) : M (option string) :=
  _ <- attempt "get" ;; fun st => (Ok (data st !! key), st).

Definition store_put (key value : string) : M unit :=
  _ <- attempt "put" ;;
  fun st => (Ok tt, {| data := <[key := value]> (data st); faults := faults st;
                       writes := writes st ++ [(key, value)] |}).

(** [event.store.persistentString]: the store handle is obtained. *)
Definition persistentString : M unit := attempt "open".

(** What a tracking observable has emitted and how it ended. *)
Inductive Result :=
| TrackingEvent (item : json)       (* { result: TRACKING_EVENT, item } *)
| HandlerResult (text : string).    (* whatever errorHandler emits *)

Inductive Terminal :=
| Completed
| Errored (e : JsError).

Record Stream := { emitted : list Result; terminal : Terminal }.

(** [catchError(h)]: an error ends the source and the handler's observable
    takes over. *)
Definition catchError (s : Stream) (h : JsError -> Stream) : Stream :=
  match terminal s with
  | Completed => s
  | Errored e => {| emitted := emitted s ++ emitted (h e); terminal := terminal (h e) |}
  end.

Inductive Kind := KChannel | KPlaylist.

#[global] Instance Kind_eq_dec : EqDecision Kind.
Proof. solve_decision. Defined.

Record BackupV1 := {
  channels : list (string * json);     (* ChannelBackupV1: key, channel *)
  playlists : list (string * json);    (* PlaylistBackupV1: key, playlist *)
}.

(** The promise of [backupV1] once the scan is over: the value it resolved
    with, and the errors thrown out of the subscriber's [next] callback. *)
Record BackupRun := {
  resolved : BackupV1;
  unhandled : list JsError;
}.

Section WithJSON.

(** [JSON.parse] ([None]: it throws a SyntaxError) and [JSON.stringify]. *)
Variable JSON_parse : string -> option json.
Variable JSON_stringify : json -> string.

(** [../errorHandler] is not in src: the observable it returns for an error. *)
Variable errorHandler : JEvent -> JsError -> Stream.

(** [Repository.get], [put] and [getOrCreate]. *)
Definition Repository_get (id : string) : M (option json) :=
  e <- store_get id ;;
  match e with
  | None => ret None
  | Some text =>
      match JSON_parse text with
      | Some entity => ret (Some entity)
      | None => raise (SyntaxError text)
      end
  end.

Definition Repository_put (id : string) (entity : json) : M json :=
  _ <- store_put id (JSON_stringify entity) ;; ret entity.

Definition Repository_getOrCreate (defaultEntity : json) (id : string) : M json :=
  e <- Repository_get id ;;
  match e with
  | Some entity => ret entity
  | None => Repository_put id defaultEntity
  end.

(** Lines 17-22: [createPlaylist]. *)
Definition createPlaylist (event : JEvent) : M json :=
  let playlistId := factory_uuid event in
  let channelId := message_channelId event in
  channel <- Repository_getOrCreate channel_defaultEntity channelId ;;
  old <- lift (bind (get_prop (Some channel) "playlists") spread) ;;
  channel' <- lift (set_prop channel "playlists" (JArr (old ++ [JStr playlistId]))) ;;
  Repository_put channelId channel'.

(** Lines 27-34: what one emission of [internalCurrentQueue] sets off. *)
Definition snapshot (event : JEvent) (currentQueue : list Track) : M json :=
  let playlistId := factory_uuid event in
  queue <- Repository_getOrCreate (playlist_defaultEntity event) playlistId ;;
  queue' <- lift (set_prop queue "tracks" (JArr (map trackToTrackV1 currentQueue))) ;;
  Repository_put playlistId queue'.

(** The second argument of [concat] at line 26, one result per emission; an
    error ends the stream.  The store is taken to answer the operations of one
    emission before the next emission arrives. *)
Fixpoint track_queue (event : JEvent) (queues : list (list Track)) (st : Store)
  : Stream * Store :=
  match queues with
  | [] => ({| emitted := []; terminal := Completed |}, st)
  | currentQueue :: rest =>
      match snapshot event currentQueue st with
      | (Ok item, st1) =>
          let '(s, st2) := track_queue event rest st1 in
          ({| emitted := TrackingEvent item :: emitted s; terminal := terminal s |}, st2)
      | (Raise e, st1) => ({| emitted := []; terminal := Errored e |}, st1)
      end
  end.

(** Lines 11-42: [events], for the queues [internalCurrentQueue] emits after
    [createPlaylist] has completed. *)
Definition events (event : JEvent) (queues : list (list Track)) (st : Store)
  : Stream * Store :=
  match (_ <- persistentString ;; createPlaylist event) st with
  | (Ok item, st1) =>
      let '(s, st2) := track_queue event queues st1 in
      ({| emitted := TrackingEvent item :: emitted s; terminal := terminal s |}, st2)
  | (Raise e, st1) => ({| emitted := []; terminal := Errored e |}, st1)
  end.

(** Lines 10-48. *)
Definition trackPlaylist (event : JEvent) (queues : list (list Track)) (st : Store)
  : Stream * Store :=
  let '(s, st1) := events event queues st in
  (catchError s (errorHandler event), st1).

(** The [next] callback of [backupV1], lines 135-151. *)
Definition backup_next (backup : BackupV1) (keyValue : string * string) : Res BackupV1 :=
  let '(key, value) := keyValue in
  match JSON_parse value with
  | None => Raise (SyntaxError value)
  | Some item =>
      bind (isChannel item) (fun c =>
      if c then Ok {| channels := channels backup ++ [(key, item)];
                      playlists := playlists backup |}
      else bind (isPlaylist item) (fun p =>
      if p then Ok {| channels := channels backup;
                      playlists := playlists backup ++ [(key, item)] |}
      else Raise (Error "Unknown object: [object Object]")))
  end.

(** How [subscribe({ next, complete })] of rxjs 7 treats the callback: what
    [next] throws is caught by the subscriber and handed to the host as an
    unhandled error on a later tick, and the subscription goes on.  The promise
    of [backupV1] is built from [resolve] alone and the subscription has no
    [error] callback, so nothing here rejects it. *)
Definition backup_scan (acc : BackupRun) (keyValue : string * string) : BackupRun :=
  match backup_next (resolved acc) keyValue with
  | Ok backup => {| resolved := backup; unhandled := unhandled acc |}
  | Raise e => {| resolved := resolved acc; unhandled := unhandled acc ++ [e] |}
  end.

(** [backupV1], lines 127-156. *)
Definition backupV1 (store : gmap string string) : BackupRun :=
  foldl backup_scan
        {| resolved := {| channels := []; playlists := [] |}; unhandled := [] |}
        (store_backup store).

(** [restoreV1]: [merge] subscribes to [restoreChannels] first, whose source
    emits synchronously, so the puts are issued channels first, each list in
    order, and the store applies them in that order. *)
Definition restore_put (store : gmap string string) (entry : string * json)
  : gmap string string :=
  <[entry.1 := JSON_stringify entry.2]> store.

Definition restoreV1 (backup : BackupV1) (store : gmap string string)
  : gmap string string :=
  foldl restore_put store (channels backup ++ playlists backup).

(** *** Notions the properties are stated with *)

(** The two kinds of record a backup keeps, decided as [backup_next] does. *)
Definition kind_of (item : json) : option Kind :=
  match isChannel item with
  | Ok true => Some KChannel
  | Ok false =>
      match isPlaylist item with
      | Ok true => Some KPlaylist
      | _ => None
      end
  | Raise _ => None
  end.

(** A stored text read as a channel or playlist record. *)
Definition record_of (text : string) : option (Kind * json) :=
  match JSON_parse text with
  | Some item =>
      match kind_of item with
      | Some k => Some (k, item)
      | None => None
      end
  | None => None
  end.

(** The canonical view of a store: key by key, the record as a JSON value. *)
Definition canon (store : gmap string string) (key : string) : option (Kind * json) :=
  match store !! key with
  | Some text => record_of text
  | None => None
  end.

(** The records of one kind among the scanned ones, in scan order. *)
Definition pick (k : Kind) (scanned : list (string * string)) : list (string * json) :=
  omap (fun kv : string * string =>
          match record_of kv.2 with
          | Some (k', item) => if decide (k' = k) then Some (kv.1, item) else None
          | None => None
          end) scanned.

(** The error [backup_next] throws for a scanned record, if any. *)
Definition thrown (kv : string * string) : list JsError :=
  match backup_next {| channels := []; playlists := [] |} kv with
  | Ok _ => []
  | Raise e => [e]
  end.

(** The value the last entry for [key] carries, if there is one. *)
Fixpoint last_write (key : string) (entries : list (string * json)) : option json :=
  match entries with
  | [] => None
  | (k, item) :: rest =>
      match last_write key rest with
      | Some item' => Some item'
      | None => if String.eqb k key then Some item else None
      end
  end.

(** The snapshot of a queue as [snapshot] leaves it in the store. *)
Definition snapshot_json (event : JEvent) (currentQueue : list Track) : json :=
  JObj [("meta", meta Type_Playlist); ("date", JNum (timestamp event));
        ("tracks", JArr (map trackToTrackV1 currentQueue))].

(** A store that answers every operation. *)
Definition sound (d : gmap string string) (w : list (string * string)) : Store :=
  {| data := d; faults := []; writes := w |}.

(** The channel record as [createPlaylist] finds it, or the default one. *)
Definition channel_found (d : gmap string string) (event : JEvent)
    (fields : list (string * json)) (old : list json) : Prop :=
  match d !! message_channelId event with
  | None => JObj fields = channel_defaultEntity ∧ old = []
  | Some text =>
      JSON_parse text = Some (JObj fields) ∧ assoc "playlists" fields = Some (JArr old)
  end.

Definition channel_writes (d : gmap string string) (event : JEvent)
    (fields : list (string * json)) (old : list json) : list (string * string) :=
  let c := message_channelId event in
  match d !! c with
  | None => [(c, JSON_stringify channel_defaultEntity)]
  | Some _ => []
  end ++
  [(c, JSON_stringify (JObj (set_field "playlists" (JArr (old ++ [JStr (factory_uuid event)])) fields)))].

(** The writes of one emission: the first one creates the record. *)
Definition snapshot_writes (event : JEvent) (first : bool) (q : list Track)
  : list (string * string) :=
  (if first then [(factory_uuid event, JSON_stringify (playlist_defaultEntity event))] else [])
  ++ [(factory_uuid event, JSON_stringify (snapshot_json event q))].

(** The writes of a run of emissions, and the store they leave. *)
Fixpoint queue_writes (event : JEvent) (first : bool) (queues : list (list Track))
  : list (string * string) :=
  match queues with
  | [] => []
  | q :: rest => snapshot_writes event first q ++ queue_writes event false rest
  end.

Definition queue_data (event : JEvent) (d : gmap string string) (queues : list (list Track))
  : gmap string string :=
  foldl (fun d q => <[factory_uuid event := JSON_stringify (snapshot_json event q)]> d) d queues.

(** [JSON.parse] gives back the snapshot [JSON.stringify] wrote. *)
Definition reads_back (event : JEvent) (q : list Track) : Prop :=
  JSON_parse (JSON_stringify (snapshot_json event q)) = Some (snapshot_json event q).

End WithJSON.

End Repo.

(** ** A JSON writer and reader to run the repository on concrete stores

    A writer and a reader for a fragment of JSON: objects without a repeated
    key, arrays, integers, the three literals, and strings without control
    characters, whose only escapes are an escaped quote, backslash or slash.
    On that fragment the writer gives the text of [JSON.stringify] and the
    reader the value of [JSON.parse]; outside of it they are not meant to
    agree with them (the reader keeps a repeated key twice and refuses the
    other escapes, the writer leaves control characters as they are). *)

Module MiniJSON.
Import Json.

Definition dquote : ascii := ascii_of_nat 34.
Definition backslash : ascii := ascii_of_nat 92.

Fixpoint escape (s : string) : string :=
  match s with
  | EmptyString => EmptyString
  | String c s' =>
      if (Ascii.eqb c dquote || Ascii.eqb c backslash)%bool
      then String backslash (String c (escape s'))
      else String c (escape s')
  end.

Definition quote (s : string) : string :=
  String dquote (escape s +:+ String dquote EmptyString).

Fixpoint Z_digits (fuel : nat) (n : N) (acc : string) : string :=
  match fuel with
  | O => acc
  | S fuel' =>
      let d := ascii_of_N (48 + n mod 10)%N in
      let acc' := String d acc in
      if (n <? 10)%N then acc' else Z_digits fuel' (n / 10)%N acc'
  end.

Definition print_Z (z : Z) : string :=
  let body := Z_digits (S (N.to_nat (N.log2 (Z.abs_N z)))) (Z.abs_N z) EmptyString in
  if (z <? 0) then String "-" body else body.

Fixpoint stringify (j : json) : string :=
  match j with
  | JNull => "null"
  | JBool true => "true"
  | JBool false => "false"
  | JNum z => print_Z z
  | JStr s => quote s
  | JArr l =>
      "[" +:+ (fix elems (l : list json) : string :=
                 match l with
                 | [] => EmptyString
                 | [x] => stringify x
                 | x :: rest => stringify x +:+ "," +:+ elems rest
                 end) l +:+ "]"
  | JObj fields =>
      "{" +:+ (fix members (fs : list (string * json)) : string :=
                 match fs with
                 | [] => EmptyString
                 | [(k, v)] => quote k +:+ ":" +:+ stringify v
                 | (k, v) :: rest => quote k +:+ ":" +:+ stringify v +:+ "," +:+ members rest
                 end) fields +:+ "}"
  end.

Fixpoint read_string (s acc : string) : option (string * string) :=
  match s with
  | EmptyString => None
  | String c s' =>
      if Ascii.eqb c dquote then Some (String.rev acc, s')
      else if Ascii.eqb c backslash then
        match s' with
        | String d s'' =>
            if (Ascii.eqb d dquote || Ascii.eqb d backslash || Ascii.eqb d "/")%bool
            then read_string s'' (String d acc)
            else None
        | EmptyString => None
        end
      else read_string s' (String c acc)
  end.

Fixpoint read_digits (s acc : string) : string * string :=
  match s with
  | String c s' => if JS.is_digit c then read_digits s' (String c acc) else (String.rev acc, s)
  | EmptyString => (String.rev acc, s)
  end.

Definition read_number (s : string) : option (json * string) :=
  let '(neg, body) := match s with
                      | String "-" s' => (true, s')
                      | _ => (false, s)
                      end in
  let '(ds, rest) := read_digits body EmptyString in
  match ds with
  | EmptyString => None
  | _ => let v := JS.digits_val 0 ds in Some (JNum (if neg then - v else v), rest)
  end.

Definition literal (word : string) (v : json) (s : string) : option (json * string) :=
  if String.prefix word s
  then Some (v, String.substring (String.length word) (String.length s - String.length word) s)
  else None.

Fixpoint read_value (fuel : nat) (s : string) : option (json * string) :=
  match fuel with
  | O => None
  | S n =>
      match JS.trim_left s with
      | EmptyString => None
      | String c rest as t =>
          if Ascii.eqb c "n" then literal "null" JNull t
          else if Ascii.eqb c "t" then literal "true" (JBool true) t
          else if Ascii.eqb c "f" then literal "false" (JBool false) t
          else if Ascii.eqb c dquote then
            match read_string rest EmptyString with
            | Some (str, r) => Some (JStr str, r)
            | None => None
            end
          else if Ascii.eqb c "[" then
            match JS.trim_left rest with
            | String "]" r => Some (JArr [], r)
            | r => read_elems n r []
            end
          else if Ascii.eqb c "{" then
            match JS.trim_left rest with
            | String "}" r => Some (JObj [], r)
            | r => read_members n r []
            end
          else read_number t
      end
  end
with read_elems (fuel : nat) (s : string) (acc : list json) : option (json * string) :=
  match fuel with
  | O => None
  | S n =>
      match read_value n s with
      | Some (v, r) =>
          match JS.trim_left r with
          | String "," r' => read_elems n r' (v :: acc)
          | String "]" r' => Some (JArr (List.rev (v :: acc)), r')
          | _ => None
          end
      | None => None
      end
  end
with read_members (fuel : nat) (s : string) (acc : list (string * json))
  : option (json * string) :=
  match fuel with
  | O => None
  | S n =>
      match JS.trim_left s with
      | String c r =>
          if Ascii.eqb c dquote then
            match read_string r EmptyString with
            | Some (k, r1) =>
                match JS.trim_left r1 with
                | String ":" r2 =>
                    match read_value n r2 with
                    | Some (v, r3) =>
                        match JS.trim_left r3 with
                        | String "," r4 => read_members n r4 ((k, v) :: acc)
                        | String "}" r4 => Some (JObj (List.rev ((k, v) :: acc)), r4)
                        | _ => None
                        end
                    | None => None
                    end
                | _ => None
                end
            | None => None
            end
          else None
      | EmptyString => None
      end
  end.

Definition parse (s : string) : option json :=
  match read_value (S (String.length s)) s with
  | Some (j, rest) =>
      match JS.trim_left rest with
      | EmptyString => Some j
      | _ => None
      end
  | None => None
  end.

End MiniJSON.

(** ** Concrete data to run the repository on *)

Module Sample.
Import Json Repo.

Definition event : JEvent :=
  {| message_channelId := "chan-1"; timestamp := 1700000000; factory_uuid := "pl-1" |}.

Definition track_a : Track :=
  {| author_id := "u1"; author_username := "ann"; track_name := "first song";
     track_link := "https://example.org/a" |}.

Definition track_b : Track :=
  {| author_id := "u2"; author_username := "bob"; track_name := "second song";
     track_link := "https://example.org/b" |}.

Definition queues : list (list Track) := [[track_a]; [track_a; track_b]].

(** An error handler that reports the error and completes. *)
Definition errorHandler (_ : JEvent) (_ : JsError) : Stream :=
  {| emitted := [HandlerResult "error logged"]; terminal := Completed |}.

Definition channel_fields : list (string * json) :=
  [("meta", meta Type_Channel); ("playlists", JArr [JStr "pl-0"])].

Definition playlist_record : json := snapshot_json event [track_b].

(** A store with one channel record and one playlist record. *)
Definition store : gmap string string :=
  <["chan-1" := MiniJSON.stringify (JObj channel_fields)]>
    (<["pl-0" := MiniJSON.stringify playlist_record]> ∅).

(** The same store with a record that is neither: a track on its own. *)
Definition store_with_track : gmap string string :=
  <["stray" := MiniJSON.stringify (trackToTrackV1 track_a)]> store.

(** A store whose third operation fails. *)
Definition failing_store : Store :=
  {| data := store; faults := [false; false; true]; writes := [] |}.

End Sample.

(** ** Observables that emit a finite run of values *)

Module Rx.

(** How an observable ends: it completes, it errors, or it does neither. *)
Inductive Ending (E : Type) :=
| Complete
| Fails (e : E)
| Silent.
Arguments Complete {E}.
Arguments Fails {E} e.
Arguments Silent {E}.

Record Obs (A E : Type) := { values : list A; ending : Ending E }.
Arguments values {A E} o.
Arguments ending {A E} o.

(** [of(x)] *)
Definition of_ {A E} (x : A) : Obs A E := {| values := [x]; ending := Complete |}.

(** [concat(a, b)]: [b] is subscribed when [a] completes, and only then. *)
Definition concat {A E} (a b : Obs A E) : Obs A E :=
  match ending a with
  | Complete => {| values := values a ++ values b; ending := ending b |}
  | _ => a
  end.

Definition completes {A E} (o : Obs A E) : bool :=
  match ending o with
  | Complete => true
  | _ => false
  end.

End Rx.

(** ** The result mixin (src/jevent/mixin/Result.ts) *)

Module ResultMixin.
Import Rx.

Section WithBase.

(** The event the mixin is applied to ([this.event]), the payload of a result
    and of its item, and the errors of the observables. *)
Variables JEvent ResultResult Item Err : Type.
Variable this_event : JEvent.

(** [{ ...arg, event: this.event }]; [item] may be [undefined]. *)
Record Result := { result_ : ResultResult; item : option Item; event : JEvent }.

(** [complexResult(arg, ...andThen)]: [andThen.reduce] with [concat], starting
    from [of({ ...arg, event })]. *)
Definition complexResult (arg_result : ResultResult) (arg_item : option Item)
    (andThen : list (Obs Result Err)) : Obs Result Err :=
  foldl (fun acc curr => concat acc curr)
        (of_ {| result_ := arg_result; item := arg_item; event := this_event |})
        andThen.

(** [result(result, ...andThen)] *)
Definition result (r : ResultResult) (andThen : list (Obs Result Err)) : Obs Result Err :=
  complexResult r None andThen.

End WithBase.

End ResultMixin.

(** ** Stores with faults against stores without *)

Module Faults.
Import Json Repo.

(** The same store with no fault to come. *)
Definition calm (st : Store) : Store :=
  {| data := data st; faults := []; writes := writes st |}.

(** A computation that, on a store with faults, either does what it does on
    the calm store or stops early with a write log the calm run extends. *)
Definition cut_short {A} (m : M A) : Prop :=
  ∀ st,
    (faults (m (calm st)).2 = [] ∧ writes st `prefix_of` writes (m (calm st)).2) ∧
    match m st with
    | (Ok a, st') => m (calm st) = (Ok a, calm st')
    | (Raise e, st') => writes st' `prefix_of` writes (m (calm st)).2
    end.

End Faults.

(** ** Runs of the message handler to try the properties on *)

Module Scenario.
Import CH.

(** A message from a member of another voice channel. *)
Definition other_msg : Message :=
  {| author_bot := false; content := "/play z"; voice_channel := Some "d";
     text_channel := "u" |}.

(** Channel c and channel d both have a wired session. *)
Definition two_channels : list Event :=
  played ++ [Inbound other_msg; PlayerInitResolved 1].

(** Channel c disconnects while its resolver call is still out. *)
Definition torn_run : list Event := played ++ [Inbound disconnect_msg].

Definition first_call : Pending :=
  {| p_sid := 0; p_next := false; p_event := sample_msg "/play x" |}.

Definition sample_item : Item := {| name := "song"; link := "https://example.org/s" |}.

(** The session of channel d after [two_channels]. *)
Definition other_session : Session :=
  {| first_message := other_msg; channelId := "d"; phase := Wired; completed := [];
     observer_closed := false; channel_stopped := false; player_connected := true |}.

End Scenario.

(** ** Results to try the result mixin on *)

Module ResultSample.
Import Rx ResultMixin.

(** Events, result payloads and errors are strings here, items are numbers. *)
Definition R : Type := Result string string nat.

Definition found : Obs R string := result string string nat string "ev" "found" [].

Definition queued : Obs R string := result string string nat string "ev" "queued" [].

(** A continuation that errors before it emits. *)
Definition failing : Obs R string := {| values := []; ending := Fails "boom" |}.

End ResultSample.

Example ex_split_seek : JS.split "/seek 1:30" "/seek " = [""; "1:30"]%string.
Proof. reflexivity. Qed.

Example ex_split_colon : JS.split "1:30:7" ":" = ["1"; "30"; "7"]%string.
Proof. reflexivity. Qed.

Example ex_seek_90 : Seek.handleMessage "/seek 1:30" = (true, Some (JS.JInt 90)).
Proof. reflexivity. Qed.

Example ex_seek_plain : Seek.handleMessage "/seek 42" = (true, Some (JS.JInt 42)).
Proof. reflexivity. Qed.

Example ex_seek_missing : Seek.handleMessage "/seek" = (true, None).
Proof. reflexivity. Qed.

(** * Properties of the seek command *)

Module SeekProofs.
Import JS.

Lemma rev_app_app s t u : String.rev_app s t +:+ u = String.rev_app s (t +:+ u).
Proof. revert t. induction s as [|a s IH]; intros t; [done|]. cbn [String.rev_app]. by rewrite IH. Qed.

Lemma rev_app_rev_app s t u :
  String.rev_app (String.rev_app s t) u = String.rev_app t (s +:+ u).
Proof.
  revert t. induction s as [|a s IH]; intros t; [done|].
  cbn [String.rev_app]. by rewrite IH.
Qed.

Lemma append_cons a s t : String a s +:+ t = String a (s +:+ t).
Proof. reflexivity. Qed.

Lemma append_nil_r s : s +:+ "" = s.
Proof. induction s as [|a s IH]; [done|]. by rewrite append_cons, IH. Qed.

Lemma rev_involutive s : String.rev (String.rev s) = s.
Proof. unfold String.rev. rewrite rev_app_rev_app. cbn [String.rev_app]. apply append_nil_r. Qed.

Lemma all_digits_rev_app s t :
  all_digits (String.rev_app s t) = all_digits s && all_digits t.
Proof.
  revert t. induction s as [|a s IH]; intros t; [done|].
  cbn [String.rev_app all_digits]. rewrite IH. cbn [all_digits].
  destruct (is_digit a), (all_digits s), (all_digits t); reflexivity.
Qed.

Lemma digit_not_space c : is_digit c = true → is_space c = false.
Proof.
  unfold is_digit, is_space. intros [H1 H2]%andb_true_iff.
  apply Nat.leb_le in H1. apply Nat.leb_le in H2.
  apply orb_false_iff. split.
  - apply Nat.eqb_neq. lia.
  - apply andb_false_iff. right. apply Nat.leb_gt. lia.
Qed.

Lemma trim_left_digits s : all_digits s = true → trim_left s = s.
Proof.
  destruct s as [|c s]; [done|]. cbn [all_digits trim_left].
  intros [H _]%andb_true_iff. by rewrite digit_not_space.
Qed.

Lemma trim_digits s : all_digits s = true → trim s = s.
Proof.
  intros H. unfold trim. rewrite (trim_left_digits s H).
  rewrite trim_left_digits, rev_involutive; [done|].
  unfold String.rev. rewrite all_digits_rev_app, H. reflexivity.
Qed.

Lemma digit_val_bounds c : is_digit c = true → 0 ≤ digit_val c ≤ 9.
Proof.
  unfold is_digit, digit_val. intros [H1 H2]%andb_true_iff.
  apply Nat.leb_le in H1. apply Nat.leb_le in H2. lia.
Qed.

Lemma digits_val_nonneg s acc : all_digits s = true → 0 ≤ acc → 0 ≤ digits_val acc s.
Proof.
  revert acc. induction s as [|c s IH]; intros acc H Hacc; [done|].
  cbn [all_digits] in H. apply andb_true_iff in H as [Hc Hs].
  cbn [digits_val]. apply IH; [done|]. pose proof (digit_val_bounds c Hc). lia.
Qed.

Lemma of_Z_safe z : 0 ≤ z ≤ safe → of_Z z = JInt z.
Proof.
  intros [H0 H1]. unfold of_Z. rewrite Z.abs_eq by done.
  by rewrite (proj2 (Z.leb_le _ _)).
Qed.

Lemma Number_digits s :
  all_digits s = true → digits_val 0 s ≤ safe → Number_string s = JInt (digits_val 0 s).
Proof.
  intros H Hle. unfold Number_string. rewrite trim_digits, H by done.
  pose proof (digits_val_nonneg s 0 H ltac:(lia)). by apply of_Z_safe.
Qed.

Lemma split_go_skip sep t s cur :
  split_go sep (t +:+ s) (String.length t) cur = split_go sep s O cur.
Proof. induction t as [|a t IH]; [done|]. rewrite append_cons. cbn [String.length split_go]. done. Qed.

Lemma prefix_append sep s : String.prefix sep (sep +:+ s) = true.
Proof.
  induction sep as [|a sep IH]; [by destruct s|].
  rewrite append_cons. cbn [String.prefix]. by destruct (ascii_dec a a).
Qed.

Lemma split_go_free c0 sep' s cur :
  free_of c0 s = true →
  split_go (String c0 sep') s O cur = [String.rev_app cur s].
Proof.
  revert cur. induction s as [|a s IH]; intros cur H; [done|].
  cbn [free_of] in H. apply andb_true_iff in H as [Ha Hs].
  cbn [split_go String.prefix].
  destruct (ascii_dec c0 a) as [->|Hne].
  - by rewrite Ascii.eqb_refl in Ha.
  - by rewrite IH.
Qed.

Lemma split_go_first c0 sep' s1 s2 cur :
  free_of c0 s1 = true →
  split_go (String c0 sep') (s1 +:+ String c0 sep' +:+ s2) O cur =
    String.rev_app cur s1 :: split_go (String c0 sep') s2 O "".
Proof.
  revert cur. induction s1 as [|a s1 IH]; intros cur H.
  - change ("" +:+ String c0 sep' +:+ s2) with (String c0 (sep' +:+ s2)).
    cbn [split_go]. 
    change (String c0 (sep' +:+ s2)) with (String c0 sep' +:+ s2) at 1.
    rewrite prefix_append. cbn [String.length Nat.pred].
    by rewrite split_go_skip.
  - cbn [free_of] in H. apply andb_true_iff in H as [Ha Hs].
    change (String a s1 +:+ String c0 sep' +:+ s2) with (String a (s1 +:+ String c0 sep' +:+ s2)).
    cbn [split_go String.prefix].
    destruct (ascii_dec c0 a) as [->|Hne].
    + by rewrite Ascii.eqb_refl in Ha.
    + by rewrite IH.
Qed.

Lemma digits_free c s : is_digit c = false → all_digits s = true → free_of c s = true.
Proof.
  intros Hc. induction s as [|a s IH]; [done|]. cbn [all_digits free_of].
  intros [Ha Hs]%andb_true_iff. rewrite IH by done.
  destruct (Ascii.eqb a c) eqn:E; [|done]. apply Ascii.eqb_eq in E. congruence.
Qed.

Lemma free_of_append c s t : free_of c (s +:+ t) = free_of c s && free_of c t.
Proof.
  induction s as [|a s IH]; [done|]. rewrite append_cons. cbn [free_of]. rewrite IH.
  by destruct (Ascii.eqb a c), (free_of c s).
Qed.

Lemma split_minutes_seconds m s :
  all_digits m = true → all_digits s = true → split (m +:+ ":" +:+ s) ":" = [m; s].
Proof.
  intros Hm Hs. unfold split.
  rewrite (split_go_first ":" "" m s "") by (by apply digits_free).
  by rewrite split_go_free by (by apply digits_free).
Qed.

Lemma split_seek rest :
  free_of "/" rest = true → split ("/seek " +:+ rest) "/seek " = [""; rest].
Proof.
  intros H. unfold split.
  change ("/seek " +:+ rest) with ("" +:+ "/seek " +:+ rest).
  rewrite (split_go_first "/" "seek " "" rest "") by done.
  by rewrite split_go_free.
Qed.

Lemma seek_offset_minutes_seconds m s :
  all_digits m = true → all_digits s = true →
  digits_val 0 m * 60 + digits_val 0 s ≤ safe →
  Seek.seek_offset ("/seek " +:+ m +:+ ":" +:+ s) =
    Some (JInt (digits_val 0 m * 60 + digits_val 0 s)).
Proof.
  intros Hm Hs Hle. unfold Seek.seek_offset.
  pose proof (digits_val_nonneg m 0 Hm ltac:(lia)) as Hm0.
  pose proof (digits_val_nonneg s 0 Hs ltac:(lia)) as Hs0.
  rewrite split_seek.
  2:{ rewrite !free_of_append, (digits_free "/" m), (digits_free "/" s) by done. reflexivity. }
  cbn [lookup list_lookup default].
  assert (Ht : truthy (Some (m +:+ ":" +:+ s)) = true) by (by destruct m).
  rewrite Ht. cbn [default from_option id].
  rewrite split_minutes_seconds by done. cbn [List.length Nat.ltb Nat.leb lookup list_lookup Number].
  rewrite !Number_digits by (done || lia).
  cbn [mul]. rewrite of_Z_safe by lia.
  cbn [add]. by rewrite of_Z_safe by lia.
Qed.

Lemma seek_offset_plain n :
  all_digits n = true → n ≠ "" → digits_val 0 n ≤ safe →
  Seek.seek_offset ("/seek " +:+ n) = Some (JInt (digits_val 0 n)).
Proof.
  intros Hn Hne Hle. unfold Seek.seek_offset.
  rewrite split_seek by (by apply digits_free).
  cbn [lookup list_lookup default].
  assert (Ht : truthy (Some n) = true) by (by destruct n).
  rewrite Ht. cbn [default from_option id]. unfold split.
  rewrite (split_go_free ":" "" n "") by (by apply digits_free).
  cbn [List.length Nat.ltb Nat.leb Number]. by rewrite Number_digits.
Qed.


Lemma seek_branch (rest : string) (st : CH.State) (sid : nat) (sess : CH.Session)
    (v : CH.Message) :
  CH.content v = "/seek " +:+ rest →
  CH.observer_next st sid sess v =
    (st, match Seek.seek_offset (CH.content v) with
         | Some n => CH.emit sid sess CH.seek (CH.PNum n)
         | None => []
         end).
Proof.
  intros Hc. unfold CH.observer_next. rewrite Hc.
  change (startsWith ("/seek " +:+ rest) "/playnext") with false.
  change (startsWith ("/seek " +:+ rest) "/play") with false.
  change (String.eqb ("/seek " +:+ rest) "/help") with false.
  change (startsWith ("/seek " +:+ rest) "/seek") with true.
  reflexivity.
Qed.

(** C9.  A [/seek] command whose argument is minutes:seconds hands
    minutes*60 + seconds to [env.seek], and one whose argument is a plain
    number hands over that number: for [Seek.handleMessage] and for the
    [/seek] branch of the command observer alike.  The minutes, seconds and
    the plain number are strings of decimal digits whose values double
    arithmetic keeps exact. *)
Theorem seek_offset_delivered (m s n : string) (st : CH.State) (sid : nat)
    (sess : CH.Session) (v1 v2 : CH.Message) :
  all_digits m = true → all_digits s = true →
  digits_val 0 m * 60 + digits_val 0 s ≤ safe →
  all_digits n = true → n ≠ "" → digits_val 0 n ≤ safe →
  CH.is_stopped sess CH.seek = false →
  CH.content v1 = "/seek " +:+ m +:+ ":" +:+ s →
  CH.content v2 = "/seek " +:+ n →
  Seek.handleMessage (CH.content v1) =
    (true, Some (JInt (digits_val 0 m * 60 + digits_val 0 s))) ∧
  CH.observer_next st sid sess v1 =
    (st, [CH.Delivered sid CH.seek (CH.PNum (JInt (digits_val 0 m * 60 + digits_val 0 s)))]) ∧
  Seek.handleMessage (CH.content v2) = (true, Some (JInt (digits_val 0 n))) ∧
  CH.observer_next st sid sess v2 =
    (st, [CH.Delivered sid CH.seek (CH.PNum (JInt (digits_val 0 n)))]).
Proof.
  intros Hm Hs Hms Hn Hne Hnb Hopen H1 H2.
  pose proof (seek_offset_minutes_seconds m s Hm Hs Hms) as E1.
  pose proof (seek_offset_plain n Hn Hne Hnb) as E2.
  repeat split.
  - unfold Seek.handleMessage. rewrite H1.
    change (startsWith ("/seek " +:+ m +:+ ":" +:+ s) "/seek") with true.
    cbn [negb]. by rewrite E1.
  - rewrite (seek_branch (m +:+ ":" +:+ s)) by done. rewrite H1, E1.
    unfold CH.emit. by rewrite Hopen.
  - unfold Seek.handleMessage. rewrite H2.
    change (startsWith ("/seek " +:+ n) "/seek") with true.
    cbn [negb]. by rewrite E2.
  - rewrite (seek_branch n) by done. rewrite H2, E2.
    unfold CH.emit. by rewrite Hopen.
Qed.

Lemma seek_offset_delivered_witness :
  Seek.handleMessage "/seek 2:05" = (true, Some (JInt 125)) ∧
  CH.observer_next CH.init 0 CH.sample_session (CH.sample_msg "/seek 2:05") =
    (CH.init, [CH.Delivered 0 CH.seek (CH.PNum (JInt 125))]) ∧
  Seek.handleMessage "/seek 42" = (true, Some (JInt 42)) ∧
  CH.observer_next CH.init 0 CH.sample_session (CH.sample_msg "/seek 42") =
    (CH.init, [CH.Delivered 0 CH.seek (CH.PNum (JInt 42))]).
Proof.
  apply (seek_offset_delivered "2" "05" "42" CH.init 0 CH.sample_session
           (CH.sample_msg "/seek 2:05") (CH.sample_msg "/seek 42"));
    try reflexivity; try (vm_compute; congruence).
Defined.

End SeekProofs.

(** * Properties of the message handler *)

Module HandlerProofs.
Import CH.

(** Case analysis on every condition the goal still branches on. *)
Ltac case_conditions :=
  repeat match goal with
         | |- context [if ?b then _ else _] => destruct b
         | |- context [match ?b with Some _ => _ | None => _ end] => destruct b
         end.

Lemma Inv_init : Inv init.
Proof.
  split; simpl.
  - intros c sid H. by rewrite lookup_empty in H.
  - intros sid s H. by rewrite lookup_nil in H.
  - intros sid s H. by rewrite lookup_nil in H.
Qed.

Lemma Inv_with_resolving st l : Inv st → Inv (with_resolving st l).
Proof. intros [H1 H2 H3]. split; simpl; auto. Qed.

Lemma complete_all_fresh sid s :
  completed s = [] →
  complete_all sid s =
    ({| first_message := first_message s; channelId := channelId s; phase := phase s;
        completed := env_keys; observer_closed := observer_closed s;
        channel_stopped := channel_stopped s; player_connected := player_connected s |},
     map (SubjectCompleted sid) env_keys).
Proof. destruct s; simpl; intros ->. reflexivity. Qed.

Lemma next_disconnect_live st sid s :
  completed s = [] → observer_closed s = false → channel_stopped s = false →
  msgObservers st !! channelId s = Some sid →
  next_disconnect st sid s =
    ({| msgObservers := delete (channelId s) (msgObservers st);
        subjects := <[sid := tear s]> (subjects st);
        resolving := resolving st |},
     teardown_trace sid s).
Proof.
  destruct s as [m c ph done oc cs pc]. cbn [completed observer_closed channel_stopped channelId].
  intros -> -> -> Hreg.
  unfold next_disconnect.
  change (is_stopped _ disconnect) with false. cbv iota.
  unfold player_on_disconnect, on_disconnect.
  cbn [completed observer_closed channel_stopped channelId first_message phase player_connected].
  rewrite complete_all_fresh by reflexivity.
  unfold close_observer, complete_channel, send.
  cbn [completed observer_closed channel_stopped channelId first_message phase player_connected].
  change (is_stopped _ sendMessage) with false. cbv iota.
  rewrite Hreg.
  destruct (decide (is_Some (Some sid))) as [_|n]; [reflexivity|].
  exfalso. apply n. eauto.
Qed.
Lemma observer_next_cases st sid s v :
  (msgObservers (observer_next st sid s v).1 = msgObservers st ∧
   subjects (observer_next st sid s v).1 = subjects st ∧
   ∀ i, filter (fun e => teardown_step i e = true) (observer_next st sid s v).2 = [])
  ∨ (content v = "/disconnect" ∧ observer_next st sid s v = next_disconnect st sid s).
Proof.
  unfold observer_next.
  repeat match goal with
         | |- context [if ?b then _ else _] => destruct b eqn:?
         end; cbn [fst snd start_resolve with_resolving msgObservers subjects];
  try (left; repeat split; try reflexivity; intros i;
       unfold emit, send;
       case_conditions; reflexivity).
  right. split; [|reflexivity]. by apply String.eqb_eq.
Qed.

Lemma observer_next_disconnect st sid s v :
  content v = "/disconnect" → observer_next st sid s v = next_disconnect st sid s.
Proof. intros H. unfold observer_next. rewrite H. reflexivity. Qed.

Lemma torn_tear s : torn (tear s) ↔ phase s = Wired.
Proof.
  unfold torn, tear; simpl. split; [tauto|]. intros H. repeat split; auto.
  intros k. unfold is_stopped; simpl. by destruct k.
Qed.

Lemma Inv_bootstrap st v c :
  Inv st → msgObservers st !! c = None → Inv (bootstrap st v c).1.
Proof.
  intros [H1 H2 H3] Hc. split; simpl.
  - intros c' sid. destruct (decide (c = c')) as [->|Hne].
    + rewrite lookup_insert_eq. intros [= <-]. exists (new_session v c').
      split; [|done]. by rewrite lookup_app_r, Nat.sub_diag.
    + rewrite lookup_insert_ne by done. intros H. destruct (H1 _ _ H) as (s & Hs & Hcs & Hst).
      exists s. split; [|done]. by apply lookup_app_l_Some.
  - intros sid s Hs Hlive. apply lookup_app_Some in Hs as [Hs|[Hlen Hs]].
    + destruct (H2 _ _ Hs Hlive) as (Hr & ?). split; [|done].
      destruct (decide (c = channelId s)) as [->|Hne]; [congruence|].
      by rewrite lookup_insert_ne.
    + apply list_lookup_singleton_Some in Hs as [Hi <-]. simpl.
      rewrite lookup_insert_eq. split; [f_equal; lia|done].
  - intros sid s Hs Hstop. apply lookup_app_Some in Hs as [Hs|[Hlen Hs]]; [eauto|].
    apply list_lookup_singleton_Some in Hs as [Hi <-]. done.
Qed.

Lemma Inv_wire st sid s :
  Inv st → subjects st !! sid = Some s → phase s = Initializing →
  Inv (set_session st sid
         {| first_message := first_message s; channelId := channelId s;
            phase := Wired; completed := completed s;
            observer_closed := observer_closed s;
            channel_stopped := channel_stopped s; player_connected := true |}).
Proof.
  intros [H1 H2 H3] Hs Hph.
  assert (Hlive : channel_stopped s = false).
  { destruct (channel_stopped s) eqn:E; [|done].
    destruct (H3 _ _ Hs E) as (Hw & _). congruence. }
  assert (Hlt : (sid < List.length (subjects st))%nat) by (by eapply lookup_lt_Some).
  split; simpl.
  - intros c i Hc. destruct (H1 _ _ Hc) as (s0 & Hs0 & Hcs & Hst).
    destruct (decide (i = sid)) as [->|Hne].
    + rewrite list_lookup_insert_eq by done. eexists; split; [done|]. simpl.
      split; congruence.
    + rewrite list_lookup_insert_ne by done. eauto.
  - intros i s0. destruct (decide (i = sid)) as [->|Hne].
    + rewrite list_lookup_insert_eq by done. intros [= <-]; simpl. intros _.
      destruct (H2 _ _ Hs Hlive) as (? & ? & ? & ?). done.
    + rewrite list_lookup_insert_ne by done. eauto.
  - intros i s0. destruct (decide (i = sid)) as [->|Hne].
    + rewrite list_lookup_insert_eq by done. intros [= <-]; simpl. congruence.
    + rewrite list_lookup_insert_ne by done. eauto.
Qed.

Lemma Inv_next_disconnect st sid s :
  Inv st → subjects st !! sid = Some s → channel_stopped s = false → phase s = Wired →
  Inv (next_disconnect st sid s).1.
Proof.
  intros HI Hs Hlive Hph. destruct (inv_live _ HI _ _ Hs Hlive) as (Hr & Hc & Ho & _).
  rewrite next_disconnect_live by done. destruct HI as [H1 H2 H3]. simpl.
  assert (Hlt : (sid < List.length (subjects st))%nat) by (by eapply lookup_lt_Some).
  split; simpl.
  - intros c i. destruct (decide (c = channelId s)) as [->|Hne].
    + by rewrite lookup_delete_eq.
    + rewrite lookup_delete_ne by done. intros Hc'.
      destruct (H1 _ _ Hc') as (s0 & Hs0 & Hcs & Hst).
      assert (i ≠ sid) by (intros ->; congruence).
      rewrite list_lookup_insert_ne by done. eauto.
  - intros i s0. destruct (decide (i = sid)) as [->|Hne].
    + rewrite list_lookup_insert_eq by done. intros [= <-]; simpl. done.
    + rewrite list_lookup_insert_ne by done. intros Hs0 Hl0.
      destruct (H2 _ _ Hs0 Hl0) as (Hr0 & ?). split; [|done].
      rewrite lookup_delete_ne; [done|]. intros E. rewrite <- E in Hr0. congruence.
  - intros i s0. destruct (decide (i = sid)) as [->|Hne].
    + rewrite list_lookup_insert_eq by done. intros [= <-] _. by apply torn_tear.
    + rewrite list_lookup_insert_ne by done. eauto.
Qed.

Lemma Inv_same st st' :
  msgObservers st' = msgObservers st → subjects st' = subjects st → Inv st → Inv st'.
Proof. intros E1 E2 [H1 H2 H3]. split; rewrite ?E1, ?E2; auto. Qed.

Lemma Inv_deliver st sid v : Inv st → Inv (deliver st sid v).1.
Proof.
  intros HI. unfold deliver.
  destruct (subjects st !! sid) as [s|] eqn:Hs; [|done].
  destruct (channel_stopped s) eqn:Hl; [done|].
  destruct (phase s) eqn:Hp; [done|].
  destruct (observer_closed s); [done|].
  destruct (observer_next_cases st sid s v) as [(E1 & E2 & _)|[_ ->]].
  - by eapply Inv_same.
  - by apply Inv_next_disconnect.
Qed.

Lemma Inv_step st ev : Inv st → Inv (step st ev).1.
Proof.
  intros HI. destruct ev as [v|sid|rid o]; simpl.
  - unfold initMsgHandler_next. destruct (screen v) as [| |c]; try done.
    destruct (msgObservers st !! c) eqn:Hc.
    + by apply Inv_deliver.
    + by apply Inv_bootstrap.
  - unfold initCmdObserver_resume.
    destruct (subjects st !! sid) as [s|] eqn:Hs; [|done].
    destruct (phase s) eqn:Hp; [|done].
    pose proof (Inv_wire _ _ _ HI Hs Hp) as HI'.
    match goal with |- context [msgObservers ?x !! ?c] => destruct (msgObservers x !! c) end.
    + by apply Inv_deliver.
    + done.
  - unfold on_resolved.
    destruct (resolving st !! rid) as [[p|]|]; try done.
    destruct (subjects st !! p_sid p) as [s|].
    + destruct (addItemToQueue_settled (p_sid p) s p o) as [[|e] effs]; by apply Inv_with_resolving.
    + by apply Inv_with_resolving.
Qed.

Lemma run_app st evs1 evs2 :
  run st (evs1 ++ evs2) =
    ((run (run st evs1).1 evs2).1, (run st evs1).2 ++ (run (run st evs1).1 evs2).2).
Proof.
  revert st. induction evs1 as [|ev evs1 IH]; intros st; simpl.
  - by destruct (run st evs2).
  - destruct (step st ev) as [st1 e1]. rewrite IH.
    destruct (run st1 evs1) as [st2 e2]; simpl.
    destruct (run st2 evs2) as [st3 e3]; simpl. by rewrite app_assoc.
Qed.

Lemma Inv_run st evs : Inv st → Inv (run st evs).1.
Proof.
  revert st. induction evs as [|ev evs IH]; intros st HI; [done|]. simpl.
  pose proof (Inv_step st ev HI) as H1. destruct (step st ev) as [st1 e1].
  specialize (IH st1 H1). destruct (run st1 evs). done.
Qed.


Lemma NoDup_all_eq {A} (l : list A) (a : A) :
  NoDup l → (∀ x, x ∈ l → x = a) → (List.length l ≤ 1)%nat.
Proof.
  intros Hnd Hall. destruct l as [|x [|y l]]; simpl; [lia|lia|].
  exfalso. assert (x = a) by (apply Hall; set_solver).
  assert (y = a) by (apply Hall; set_solver). subst.
  apply NoDup_cons in Hnd as [Hn _]. apply Hn. set_solver.
Qed.

Lemma NoDup_only {A} (l : list A) (a : A) :
  NoDup l → (∀ x, x ∈ l ↔ x = a) → l = [a].
Proof.
  intros Hnd Hall.
  assert (Ha : a ∈ l) by (by apply Hall).
  assert (Hle : (List.length l ≤ 1)%nat).
  { apply (NoDup_all_eq l a Hnd). intros x Hx. by apply Hall. }
  destruct l as [|x [|y l]]; simpl in Hle; [by apply elem_of_nil in Ha| |lia].
  apply list_elem_of_singleton in Ha. by subst.
Qed.

Lemma elem_of_live_sessions st c sid :
  sid ∈ live_sessions st c ↔
  ∃ s, subjects st !! sid = Some s ∧ channel_stopped s = false ∧ channelId s = c.
Proof.
  unfold live_sessions. rewrite list_elem_of_filter, elem_of_seq. unfold live_on.
  split.
  - intros [H _]. destruct (subjects st !! sid) as [s|]; [|done].
    apply andb_true_iff in H as [H1 H2]. apply bool_decide_eq_true in H2.
    exists s. by destruct (channel_stopped s).
  - intros (s & Hs & Hl & Hc). rewrite Hs, Hl. split.
    + simpl. by apply bool_decide_eq_true.
    + apply lookup_lt_Some in Hs. lia.
Qed.

Lemma elem_of_live_players st c sid :
  sid ∈ live_players st c ↔
  ∃ s, subjects st !! sid = Some s ∧ player_connected s = true ∧ channelId s = c.
Proof.
  unfold live_players. rewrite list_elem_of_filter, elem_of_seq. unfold player_on.
  split.
  - intros [H _]. destruct (subjects st !! sid) as [s|]; [|done].
    apply andb_true_iff in H as [H1 H2]. apply bool_decide_eq_true in H2. eauto.
  - intros (s & Hs & Hl & Hc). rewrite Hs, Hl. split.
    + simpl. by apply bool_decide_eq_true.
    + apply lookup_lt_Some in Hs. lia.
Qed.

Lemma NoDup_live_sessions st c : NoDup (live_sessions st c).
Proof. apply NoDup_filter, NoDup_seq. Qed.

Lemma NoDup_live_players st c : NoDup (live_players st c).
Proof. apply NoDup_filter, NoDup_seq. Qed.

Lemma live_sessions_registry st c :
  Inv st →
  live_sessions st c = match msgObservers st !! c with Some sid => [sid] | None => [] end.
Proof.
  intros HI. destruct (msgObservers st !! c) as [sid|] eqn:Hc.
  - apply NoDup_only; [apply NoDup_live_sessions|].
    intros x. rewrite elem_of_live_sessions. split.
    + intros (s & Hs & Hl & <-). destruct (inv_live _ HI _ _ Hs Hl) as [Hr _]. congruence.
    + intros ->. destruct (inv_registry _ HI _ _ Hc) as (s & ? & ? & ?). eauto.
  - destruct (live_sessions st c) as [|x l] eqn:E; [done|]. exfalso.
    assert (Hx : x ∈ live_sessions st c) by (rewrite E; set_solver).
    apply elem_of_live_sessions in Hx as (s & Hs & Hl & <-).
    destruct (inv_live _ HI _ _ Hs Hl) as [Hr _]. congruence.
Qed.

Lemma live_players_le st c : Inv st → (List.length (live_players st c) ≤ 1)%nat.
Proof.
  intros HI. destruct (msgObservers st !! c) as [sid|] eqn:Hc.
  - apply (NoDup_all_eq _ sid); [apply NoDup_live_players|].
    intros x (s & Hs & Hp & <-)%elem_of_live_players.
    destruct (channel_stopped s) eqn:Hl.
    + destruct (inv_torn _ HI _ _ Hs Hl) as (_ & _ & _ & Hpc & _). congruence.
    + destruct (inv_live _ HI _ _ Hs Hl) as [Hr _]. congruence.
  - destruct (live_players st c) as [|x l] eqn:E; [simpl; lia|]. exfalso.
    assert (Hx : x ∈ live_players st c) by (rewrite E; set_solver).
    apply elem_of_live_players in Hx as (s & Hs & Hp & <-).
    destruct (channel_stopped s) eqn:Hl.
    + destruct (inv_torn _ HI _ _ Hs Hl) as (_ & _ & _ & Hpc & _). congruence.
    + destruct (inv_live _ HI _ _ Hs Hl) as [Hr _]. congruence.
Qed.

Lemma deliver_length st sid v :
  Inv st → List.length (subjects (deliver st sid v).1) = List.length (subjects st).
Proof.
  intros HI. unfold deliver.
  destruct (subjects st !! sid) as [s|] eqn:Hs; [|done].
  destruct (channel_stopped s) eqn:Hl; [done|].
  destruct (phase s) eqn:Hp; [done|].
  destruct (observer_closed s) eqn:Ho; [done|].
  destruct (observer_next_cases st sid s v) as [(E1 & E2 & _)|[_ ->]].
  - by rewrite E2.
  - destruct (inv_live _ HI _ _ Hs Hl) as (Hr & Hc & _).
    rewrite next_disconnect_live by done. simpl. by rewrite length_insert.
Qed.

Lemma step_length st ev :
  Inv st →
  List.length (subjects (step st ev).1) = List.length (subjects st) ∨
  ∃ v c, ev = Inbound v ∧ screen v = Accepted c ∧ msgObservers st !! c = None ∧
         step st ev = bootstrap st v c.
Proof.
  intros HI. destruct ev as [v|sid|rid o]; simpl.
  - unfold initMsgHandler_next. destruct (screen v) as [| |c] eqn:Hsc; [by left|by left|].
    destruct (msgObservers st !! c) as [sid|] eqn:Hc.
    + left. by apply deliver_length.
    + right. exists v, c. by rewrite Hc.
  - left. unfold initCmdObserver_resume.
    destruct (subjects st !! sid) as [s|] eqn:Hs; [|done].
    destruct (phase s) eqn:Hp; [|done].
    pose proof (Inv_wire _ _ _ HI Hs Hp) as HI'.
    match goal with |- context [msgObservers ?x !! ?c] => destruct (msgObservers x !! c) end.
    + rewrite deliver_length by done. simpl. by rewrite length_insert.
    + simpl. by rewrite length_insert.
  - left. unfold on_resolved.
    destruct (resolving st !! rid) as [[p|]|]; try done.
    destruct (subjects st !! p_sid p) as [s|]; [|done].
    by destruct (addItemToQueue_settled (p_sid p) s p o) as [[|e] effs].
Qed.

Lemma live_players_registry st c :
  Inv st →
  live_players st c =
    match msgObservers st !! c with
    | Some sid =>
        match subjects st !! sid with
        | Some s => if player_connected s then [sid] else []
        | None => []
        end
    | None => []
    end.
Proof.
  intros HI.
  assert (Hin : ∀ x, x ∈ live_players st c →
                     msgObservers st !! c = Some x ∧
                     ∃ s, subjects st !! x = Some s ∧ player_connected s = true).
  { intros x (s & Hs & Hp & <-)%elem_of_live_players.
    destruct (channel_stopped s) eqn:Hl.
    - destruct (inv_torn _ HI _ _ Hs Hl) as (_ & _ & _ & Hpc & _). congruence.
    - destruct (inv_live _ HI _ _ Hs Hl) as [Hr _]. eauto. }
  assert (Hnone : ∀ l, (∀ x, x ∈ l → False) → l = ([] : list nat)).
  { intros [|x l] H; [done|]. exfalso. apply (H x). apply elem_of_cons. by left. }
  destruct (msgObservers st !! c) as [sid|] eqn:Hc.
  - destruct (inv_registry _ HI _ _ Hc) as (s & Hs & Hcs & Hst). rewrite Hs.
    destruct (player_connected s) eqn:Hp.
    + apply NoDup_only; [apply NoDup_live_players|]. intros x. split.
      * intros Hx. destruct (Hin x Hx) as [Hr _]. congruence.
      * intros ->. apply elem_of_live_players. eauto.
    + apply Hnone. intros x Hx. destruct (Hin x Hx) as [Hr (s' & Hs' & Hp')]. congruence.
  - apply Hnone. intros x Hx. destruct (Hin x Hx) as [Hr _]. congruence.
Qed.

(** C1.  After any sequence of events a channel has at most one live session
    and at most one connected player.  A message accepted for a channel without
    a registered session creates one (a new Subject, registered for the
    channel, and a call of [Player.init]); when [Player.init] resolves that
    session's command observer is subscribed and its player connected, they
    are the channel's only ones, and the observer handles the message.  A
    message accepted for a channel with a registered session goes to the
    Subject of exactly that session and creates nothing: the command observer
    of that session handles it, or, as long as [Player.init] has not resolved
    and no observer is subscribed, the Subject drops it.  A step creates a
    session only for a channel that has none registered and whose earlier
    sessions have all been torn down. *)
Theorem one_session_per_channel (evs : list Event) (c : string) :
  let st := (run init evs).1 in
  (List.length (live_sessions st c) ≤ 1)%nat ∧
  (List.length (live_players st c) ≤ 1)%nat ∧
  (∀ v, screen v = Accepted c →
     match msgObservers st !! c with
     | None =>
         let sid := List.length (subjects st) in
         let st1 := {| msgObservers := <[c := sid]> (msgObservers st);
                       subjects := subjects st ++ [new_session v c];
                       resolving := resolving st |} in
         let s := {| first_message := v; channelId := c; phase := Wired;
                     completed := []; observer_closed := false;
                     channel_stopped := false; player_connected := true |} in
         let st2 := set_session st1 sid s in
         live_sessions st c = [] ∧ live_players st c = [] ∧
         step st (Inbound v) =
           (st1, [SubjectCreated sid c;
                  LogInfo ("Initializing new observer for: " +:+ c);
                  PlaylistInit sid; PlayerInit sid]) ∧
         live_sessions st1 c = [sid] ∧ live_players st1 c = [] ∧
         step st1 (PlayerInitResolved sid) = observer_next st2 sid s v ∧
         live_sessions st2 c = [sid] ∧ live_players st2 c = [sid]
     | Some sid =>
         ∃ s, subjects st !! sid = Some s ∧ channelId s = c ∧
              live_sessions st c = [sid] ∧
              step st (Inbound v) =
                match phase s with
                | Wired => observer_next st sid s v
                | Initializing => (st, [])
                end ∧
              List.length (subjects (step st (Inbound v)).1) = List.length (subjects st)
     end) ∧
  (∀ ev, List.length (subjects (step st ev).1) = List.length (subjects st) ∨
         ∃ v' c', ev = Inbound v' ∧ screen v' = Accepted c' ∧
                  msgObservers st !! c' = None ∧ live_sessions st c' = [] ∧
                  (∀ i s, subjects st !! i = Some s → channelId s = c' → torn s) ∧
                  List.length (subjects (step st ev).1) = S (List.length (subjects st))).
Proof.
  intros st. assert (HI : Inv st) by apply Inv_run, Inv_init.
  split; [|split; [|split]].
  - rewrite live_sessions_registry by done. destruct (msgObservers st !! c); simpl; lia.
  - by apply live_players_le.
  - intros v Hsc. pose proof (live_sessions_registry st c HI) as Hls.
    pose proof (live_players_registry st c HI) as Hlp.
    destruct (msgObservers st !! c) as [sid|] eqn:Hc.
    + destruct (inv_registry _ HI _ _ Hc) as (s & Hs & Hcs & Hst).
      destruct (inv_live _ HI _ _ Hs Hst) as (_ & _ & Hoc & _).
      exists s. split; [done|]. split; [done|]. split; [done|].
      assert (E : step st (Inbound v) = deliver st sid v).
      { cbn [step]. unfold initMsgHandler_next. by rewrite Hsc, Hc. }
      split.
      * rewrite E. unfold deliver. rewrite Hs, Hst. destruct (phase s); [done|].
        by rewrite Hoc.
      * rewrite E. by apply deliver_length.
    + intros sid st1 s st2.
      assert (E : step st (Inbound v) = bootstrap st v c).
      { cbn [step]. unfold initMsgHandler_next. by rewrite Hsc, Hc. }
      assert (HI1 : Inv st1) by (by apply (Inv_bootstrap st v c)).
      assert (Hs1 : subjects st1 !! sid = Some (new_session v c)).
      { unfold st1, sid. cbn [subjects]. by rewrite lookup_app_r, Nat.sub_diag. }
      assert (Hc1 : msgObservers st1 !! c = Some sid).
      { unfold st1. cbn [msgObservers]. apply lookup_insert_eq. }
      assert (HI2 : Inv st2) by (by apply (Inv_wire st1 sid (new_session v c))).
      assert (Hlt : (sid < List.length (subjects st1))%nat) by (by eapply lookup_lt_Some).
      assert (Hs2 : subjects st2 !! sid = Some s).
      { unfold st2, set_session, with_subjects. cbn [subjects].
        by apply list_lookup_insert_eq. }
      assert (Hc2 : msgObservers st2 !! c = Some sid) by exact Hc1.
      split; [done|]. split; [done|]. split; [by rewrite E|].
      split; [by rewrite (live_sessions_registry st1 c HI1), Hc1|].
      split; [by rewrite (live_players_registry st1 c HI1), Hc1, Hs1|].
      split; [|split].
      * cbn [step]. unfold initCmdObserver_resume. rewrite Hs1.
        cbn [phase new_session first_message channelId completed observer_closed
             channel_stopped].
        fold s. fold st2. rewrite Hc2. unfold deliver. by rewrite Hs2.
      * by rewrite (live_sessions_registry st2 c HI2), Hc2.
      * by rewrite (live_players_registry st2 c HI2), Hc2, Hs2.
  - intros ev.
    destruct (step_length st ev HI) as [E|(v' & c' & -> & Hs' & Hc' & E)]; [by left|].
    right. exists v', c'. repeat split; try done.
    + rewrite live_sessions_registry by done. by rewrite Hc'.
    + destruct (channel_stopped s) eqn:Hl.
      * by destruct (inv_torn _ HI _ _ H Hl) as (? & _).
      * destruct (inv_live _ HI _ _ H Hl) as [Hr _]. congruence.
    + destruct (channel_stopped s) eqn:Hl.
      * by destruct (inv_torn _ HI _ _ H Hl) as (_ & ? & _).
      * destruct (inv_live _ HI _ _ H Hl) as [Hr _]. congruence.
    + destruct (channel_stopped s) eqn:Hl; [done|].
      destruct (inv_live _ HI _ _ H Hl) as [Hr _]. congruence.
    + destruct (channel_stopped s) eqn:Hl.
      * by destruct (inv_torn _ HI _ _ H Hl) as (_ & _ & _ & ? & _).
      * destruct (inv_live _ HI _ _ H Hl) as [Hr _]. congruence.
    + destruct (channel_stopped s) eqn:Hl.
      * destruct (inv_torn _ HI _ _ H Hl) as (_ & _ & _ & _ & Hk). apply Hk.
      * destruct (inv_live _ HI _ _ H Hl) as [Hr _]. congruence.
    + rewrite E. unfold bootstrap. cbn [fst subjects]. rewrite length_app. cbn [List.length]. lia.
Qed.

Lemma teardown_trace_other sid i s :
  i ≠ sid → filter (fun e => teardown_step i e = true) (teardown_trace sid s) = [].
Proof.
  intros Hne. unfold teardown_trace.
  repeat (rewrite filter_cons; cbn [teardown_step]; rewrite ?bool_decide_eq_false_2 by done;
          rewrite decide_False by done).
  reflexivity.
Qed.

Lemma deliver_silent st sid s i v :
  Inv st → subjects st !! sid = Some s → channel_stopped s = true →
  subjects (deliver st i v).1 !! sid = Some s ∧
  filter (fun e => teardown_step sid e = true) (deliver st i v).2 = [].
Proof.
  intros HI Hs Hstop. unfold deliver.
  destruct (subjects st !! i) as [s'|] eqn:Hs'; [|done].
  destruct (channel_stopped s') eqn:Hl; [done|].
  destruct (phase s') eqn:Hp; [done|].
  destruct (observer_closed s') eqn:Ho; [done|].
  assert (Hne : sid ≠ i) by (intros ->; congruence).
  destruct (observer_next_cases st i s' v) as [(E1 & E2 & E3)|[_ ->]].
  - rewrite E2. split; [done|apply E3].
  - destruct (inv_live _ HI _ _ Hs' Hl) as (Hr & Hc & _).
    rewrite next_disconnect_live by done. cbn [fst snd subjects].
    rewrite list_lookup_insert_ne by done. split; [done|].
    by apply teardown_trace_other.
Qed.

Lemma settled_silent sid s p o i :
  filter (fun e => teardown_step i e = true) (addItemToQueue_settled sid s p o).2 = [] ∧
  (addItemToQueue_settled sid s p o).1 = Normal.
Proof.
  unfold addItemToQueue_settled, try_catch, next_add, send.
  destruct o as [it| |e]; destruct (p_next p);
    case_conditions; split; reflexivity.
Qed.

Lemma step_silent st sid s ev :
  Inv st → subjects st !! sid = Some s → channel_stopped s = true →
  subjects (step st ev).1 !! sid = Some s ∧
  filter (fun e => teardown_step sid e = true) (step st ev).2 = [].
Proof.
  intros HI Hs Hstop. destruct ev as [v|i|rid o]; cbn [step].
  - unfold initMsgHandler_next. destruct (screen v) as [| |c]; [done|done|].
    destruct (msgObservers st !! c) as [i|] eqn:Hc.
    + by apply deliver_silent.
    + unfold bootstrap; cbn [fst snd subjects]. split; [by apply lookup_app_l_Some|done].
  - unfold initCmdObserver_resume.
    destruct (subjects st !! i) as [s'|] eqn:Hs'; [|done].
    destruct (phase s') eqn:Hp; [|done].
    assert (Hne : sid ≠ i).
    { intros ->. destruct (inv_torn _ HI _ _ Hs Hstop) as (Hw & _). congruence. }
    pose proof (Inv_wire _ _ _ HI Hs' Hp) as HI'.
    match goal with |- context [msgObservers ?x !! ?c] => destruct (msgObservers x !! c) end.
    + apply deliver_silent; [done| |done]. cbn [set_session with_subjects subjects].
      by rewrite list_lookup_insert_ne.
    + cbn [fst snd set_session with_subjects subjects].
      by rewrite list_lookup_insert_ne.
  - unfold on_resolved.
    destruct (resolving st !! rid) as [[p|]|]; try done.
    destruct (subjects st !! p_sid p) as [s'|]; [|done].
    destruct (settled_silent (p_sid p) s' p o sid) as [E1 E2].
    destruct (addItemToQueue_settled (p_sid p) s' p o) as [[|e] effs]; [done|done].
Qed.

Lemma run_silent st sid s evs :
  Inv st → subjects st !! sid = Some s → channel_stopped s = true →
  filter (fun e => teardown_step sid e = true) (run st evs).2 = [].
Proof.
  revert st. induction evs as [|ev evs IH]; intros st HI Hs Hstop; [done|].
  cbn [run]. pose proof (Inv_step st ev HI) as HI1.
  destruct (step_silent st sid s ev HI Hs Hstop) as [Hs1 E1].
  destruct (step st ev) as [st1 e1]. cbn [fst snd] in *.
  specialize (IH st1 HI1 Hs1 Hstop).
  destruct (run st1 evs) as [st2 e2]. cbn [fst snd] in *.
  by rewrite filter_app, E1, IH.
Qed.

Lemma complete_idempotent sid k acc :
  complete sid k (complete sid k acc) = complete sid k acc.
Proof.
  destruct acc as [s effs]. unfold complete.
  destruct (is_stopped s k) eqn:E; [by rewrite E|].
  unfold is_stopped at 1; cbn [completed].
  rewrite bool_decide_eq_true_2; [done|]. apply elem_of_app. right. set_solver.
Qed.

(** C3.  [/disconnect] on a wired, live session does, in this order: the
    player stops and drops its connection, the reply is sent, every subject of
    the environment is completed (completing twice changes nothing), the
    command observer is unsubscribed, the channel's Subject is completed and
    the session leaves the registry.  Afterwards no event makes any step of
    that session's teardown happen again. *)
Theorem disconnect_teardown_order (evs evs' : list Event) (sid : nat) (s : Session)
    (v : Message) :
  let st := (run init evs).1 in
  subjects st !! sid = Some s → phase s = Wired → channel_stopped s = false →
  screen v = Accepted (channelId s) → content v = "/disconnect" →
  (step st (Inbound v)).2 =
    [Delivered sid disconnect PNull;
     PlayerStop sid; ConnectionDisconnect sid;
     ChannelSend (text_channel (first_message s)) "Bye!";
     SubjectCompleted sid sendMessage; SubjectCompleted sid currentlyPlaying;
     SubjectCompleted sid nextItemInPlaylist; SubjectCompleted sid addItemToQueue;
     SubjectCompleted sid addNextItemToQueue; SubjectCompleted sid printQueueRequest;
     SubjectCompleted sid removeFromQueue; SubjectCompleted sid disconnect;
     SubjectCompleted sid setBassLevel; SubjectCompleted sid seek;
     ObserverUnsubscribed sid;
     ChannelObserverCompleted sid;
     RegistryDeleted sid (channelId s)] ∧
  (∀ k acc, complete sid k (complete sid k acc) = complete sid k acc) ∧
  msgObservers (step st (Inbound v)).1 !! channelId s = None ∧
  live_sessions (step st (Inbound v)).1 (channelId s) = [] ∧
  filter (fun e => teardown_step sid e = true) (run (step st (Inbound v)).1 evs').2 = [].
Proof.
  intros st Hs Hp Hl Hsc Hc. assert (HI : Inv st) by apply Inv_run, Inv_init.
  destruct (inv_live _ HI _ _ Hs Hl) as (Hr & Hd & Ho & _).
  assert (E : step st (Inbound v) =
              ({| msgObservers := delete (channelId s) (msgObservers st);
                  subjects := <[sid := tear s]> (subjects st);
                  resolving := resolving st |}, teardown_trace sid s)).
  { cbn [step]. unfold initMsgHandler_next. rewrite Hsc, Hr. unfold deliver.
    rewrite Hs, Hl, Hp, Ho. rewrite observer_next_disconnect by done.
    by apply next_disconnect_live. }
  pose proof (Inv_step st (Inbound v) HI) as HI'.
  rewrite E in *. cbn [fst snd] in *.
  split; [reflexivity|]. split; [apply complete_idempotent|].
  split; [cbn [msgObservers]; apply lookup_delete_eq|].
  split.
  - rewrite live_sessions_registry by done. cbn [msgObservers]. by rewrite lookup_delete_eq.
  - apply (run_silent _ sid (tear s)); [done| |done].
    cbn [subjects]. apply list_lookup_insert_eq. by eapply lookup_lt_Some.
Qed.

(** C2.  When the resolver call of a [/play] or [/playnext] settles, however
    it settles, [addItemToQueue] completes normally: nothing is left unhandled,
    the registry and every session are as before, and no teardown step of any
    session happens.  If the call threw, the error is logged and the channel is
    told so.  A message whose channel id cannot be determined is answered with
    an error message and changes nothing. *)
Theorem command_errors_stay_local (st : State) (rid : nat) (p : Pending) (s : Session)
    (o : Outcome) (e : string) :
  resolving st !! rid = Some (Some p) → subjects st !! p_sid p = Some s →
  (addItemToQueue_settled (p_sid p) s p o).1 = Normal ∧
  msgObservers (step st (ResolveSettled rid o)).1 = msgObservers st ∧
  subjects (step st (ResolveSettled rid o)).1 = subjects st ∧
  filter (fun x => unhandled x = true) (step st (ResolveSettled rid o)).2 = [] ∧
  (∀ i, filter (fun x => teardown_step i x = true) (step st (ResolveSettled rid o)).2 = []) ∧
  (step st (ResolveSettled rid (Threw e))).2 =
    LogError e :: send s ("Unable to add song to playlist: " +:+ e) ∧
  (is_stopped s sendMessage = false →
   send s ("Unable to add song to playlist: " +:+ e) =
     [ChannelSend (text_channel (first_message s)) ("Unable to add song to playlist: " +:+ e)]) ∧
  (∀ v, screen v = NoChannel →
        step st (Inbound v) =
          (st, [ChannelSend (text_channel v)
                  "Could not determine channel id, are you joined to a voice channel?"])).
Proof.
  intros Hr Hs.
  assert (E : step st (ResolveSettled rid o) =
              (with_resolving st (<[rid := None]> (resolving st)),
               (addItemToQueue_settled (p_sid p) s p o).2)).
  { cbn [step]. unfold on_resolved. rewrite Hr, Hs.
    destruct (settled_silent (p_sid p) s p o 0%nat) as [_ E2].
    destruct (addItemToQueue_settled (p_sid p) s p o) as [[|x] effs]; [done|done]. }
  split; [apply (settled_silent _ _ _ _ 0%nat)|].
  rewrite E. cbn [fst snd with_resolving msgObservers subjects].
  split; [done|]. split; [done|]. split.
  { unfold addItemToQueue_settled, try_catch, next_add, send.
    destruct o as [it| |x]; destruct (p_next p);
      case_conditions; reflexivity. }
  split; [intros i; apply settled_silent|].
  split.
  { cbn [step]. unfold on_resolved. rewrite Hr, Hs. reflexivity. }
  split.
  { intros Hst. unfold send. by rewrite Hst. }
  intros v Hv. cbn [step]. unfold initMsgHandler_next. by rewrite Hv.
Qed.

(** C10.  A message written by a bot, and a message whose content does not
    start with a slash, changes nothing and causes nothing: no session, no
    command, no reply. *)
Theorem filtered_messages_are_ignored (st : State) (v : Message) :
  author_bot v = true ∨ JS.startsWith (content v) "/" = false →
  step st (Inbound v) = (st, []).
Proof.
  intros H. cbn [step]. unfold initMsgHandler_next, screen.
  destruct (author_bot v); [done|]. destruct H as [H|H]; [done|]. by rewrite H.
Qed.

(** C8.  [/disconnect] for a channel that has no session, because none was
    ever created or because the last one was torn down: the handler bootstraps
    a session and a player for it, then tears both down and sends the
    farewell; no session is registered afterwards. *)
Theorem disconnect_without_session_bootstraps :
  (run init [Inbound disconnect_msg; PlayerInitResolved 0]).2 =
    [SubjectCreated 0 "c"; LogInfo "Initializing new observer for: c";
     PlaylistInit 0; PlayerInit 0;
     Delivered 0 disconnect PNull; PlayerStop 0; ConnectionDisconnect 0;
     ChannelSend "t" "Bye!";
     SubjectCompleted 0 sendMessage; SubjectCompleted 0 currentlyPlaying;
     SubjectCompleted 0 nextItemInPlaylist; SubjectCompleted 0 addItemToQueue;
     SubjectCompleted 0 addNextItemToQueue; SubjectCompleted 0 printQueueRequest;
     SubjectCompleted 0 removeFromQueue; SubjectCompleted 0 disconnect;
     SubjectCompleted 0 setBassLevel; SubjectCompleted 0 seek;
     ObserverUnsubscribed 0; ChannelObserverCompleted 0; RegistryDeleted 0 "c"] ∧
  msgObservers (run init [Inbound disconnect_msg; PlayerInitResolved 0]).1 !! "c" = None ∧
  (run (run init (played ++ [Inbound disconnect_msg])).1
       [Inbound disconnect_msg; PlayerInitResolved 1]).2 =
    [SubjectCreated 1 "c"; LogInfo "Initializing new observer for: c";
     PlaylistInit 1; PlayerInit 1;
     Delivered 1 disconnect PNull; PlayerStop 1; ConnectionDisconnect 1;
     ChannelSend "t" "Bye!";
     SubjectCompleted 1 sendMessage; SubjectCompleted 1 currentlyPlaying;
     SubjectCompleted 1 nextItemInPlaylist; SubjectCompleted 1 addItemToQueue;
     SubjectCompleted 1 addNextItemToQueue; SubjectCompleted 1 printQueueRequest;
     SubjectCompleted 1 removeFromQueue; SubjectCompleted 1 disconnect;
     SubjectCompleted 1 setBassLevel; SubjectCompleted 1 seek;
     ObserverUnsubscribed 1; ChannelObserverCompleted 1; RegistryDeleted 1 "c"].
Proof. repeat split; vm_compute; reflexivity. Qed.

End HandlerProofs.

(** * Properties of the repository *)

Module RepoProofs.
Import Json Repo.

Section WithJSON.
Variable JSON_parse : string -> option json.
Variable JSON_stringify : json -> string.

Local Abbreviation backup_next := (backup_next JSON_parse).
Local Abbreviation backup_scan := (backup_scan JSON_parse).
Local Abbreviation backupV1 := (backupV1 JSON_parse).
Local Abbreviation restore_put := (restore_put JSON_stringify).
Local Abbreviation restoreV1 := (restoreV1 JSON_stringify).
Local Abbreviation record_of := (record_of JSON_parse).
Local Abbreviation canon := (canon JSON_parse).
Local Abbreviation pick := (pick JSON_parse).
Local Abbreviation thrown := (thrown JSON_parse).
Variable errorHandler : JEvent -> JsError -> Stream.
Local Abbreviation Repository_get := (Repository_get JSON_parse).
Local Abbreviation Repository_put := (Repository_put JSON_stringify).
Local Abbreviation Repository_getOrCreate := (Repository_getOrCreate JSON_parse JSON_stringify).
Local Abbreviation createPlaylist := (createPlaylist JSON_parse JSON_stringify).
Local Abbreviation snapshot := (snapshot JSON_parse JSON_stringify).
Local Abbreviation track_queue := (track_queue JSON_parse JSON_stringify).
Local Abbreviation events := (events JSON_parse JSON_stringify).
Local Abbreviation trackPlaylist := (trackPlaylist JSON_parse JSON_stringify errorHandler).
Local Abbreviation channel_found := (channel_found JSON_parse).
Local Abbreviation channel_writes := (channel_writes JSON_stringify).
Local Abbreviation snapshot_writes := (snapshot_writes JSON_stringify).
Local Abbreviation queue_writes := (queue_writes JSON_stringify).
Local Abbreviation queue_data := (queue_data JSON_stringify).
Local Abbreviation reads_back := (reads_back JSON_parse JSON_stringify).

(** One scanned record: it lands in the list of its kind, or its error is
    reported and the payload stays as it was. *)
Lemma backup_scan_step acc kv :
  backup_scan acc kv =
    {| resolved := {| channels := channels (resolved acc) ++ pick KChannel [kv];
                      playlists := playlists (resolved acc) ++ pick KPlaylist [kv] |};
       unhandled := unhandled acc ++ thrown kv |}.
Proof.
  destruct acc as [[cs ps] errs], kv as [key value].
  unfold Repo.backup_scan, Repo.thrown, Repo.backup_next, Repo.pick, Repo.record_of, kind_of.
  cbn [resolved unhandled channels playlists omap list_omap fst snd].
  destruct (JSON_parse value) as [item|]; [|by rewrite !app_nil_r].
  destruct (isChannel item) as [[|]|e]; cbn [bind]; [| |by rewrite !app_nil_r].
  - by rewrite !app_nil_r.
  - destruct (isPlaylist item) as [[|]|e]; cbn [bind]; by rewrite !app_nil_r.
Qed.

Lemma pick_app k l1 l2 : pick k (l1 ++ l2) = pick k l1 ++ pick k l2.
Proof. unfold Repo.pick. apply omap_app. Qed.

Lemma backup_fold acc l :
  foldl backup_scan acc l =
    {| resolved := {| channels := channels (resolved acc) ++ pick KChannel l;
                      playlists := playlists (resolved acc) ++ pick KPlaylist l |};
       unhandled := unhandled acc ++ List.concat (map thrown l) |}.
Proof.
  revert acc. induction l as [|kv l IH]; intros acc.
  - destruct acc as [[cs ps] errs]. cbn. by rewrite !app_nil_r.
  - cbn [foldl]. rewrite IH, backup_scan_step.
    cbn [resolved unhandled channels playlists map List.concat].
    rewrite <- !app_assoc.
    change (kv :: l) with ([kv] ++ l). by rewrite !pick_app.
Qed.

Lemma backupV1_spec store :
  backupV1 store =
    {| resolved := {| channels := pick KChannel (map_to_list store);
                      playlists := pick KPlaylist (map_to_list store) |};
       unhandled := List.concat (map thrown (map_to_list store)) |}.
Proof. unfold Repo.backupV1, store_backup. by rewrite backup_fold. Qed.

Lemma elem_of_pick k l key item :
  (key, item) ∈ pick k l ↔ ∃ text, (key, text) ∈ l ∧ record_of text = Some (k, item).
Proof.
  unfold Repo.pick. rewrite list_elem_of_omap. split.
  - intros ([key' text] & Hin & H). cbn [fst snd] in H.
    destruct (record_of text) as [[k' item']|] eqn:E; [|done].
    destruct (decide (k' = k)) as [->|]; [|done].
    injection H as -> ->. eauto.
  - intros (text & Hin & E). exists (key, text). split; [done|].
    cbn [fst snd]. rewrite E. by rewrite decide_True.
Qed.

Lemma restore_absent key l s :
  (∀ item, (key, item) ∉ l) → foldl restore_put s l !! key = s !! key.
Proof.
  revert s. induction l as [|[k item] l IH]; intros s H; [done|].
  cbn [foldl]. rewrite IH.
  - unfold Repo.restore_put. cbn [fst snd]. apply lookup_insert_ne.
    intros ->. apply (H item). set_solver.
  - intros item' Hin. apply (H item'). set_solver.
Qed.

Lemma restore_last_write key l s :
  foldl restore_put s l !! key =
    match last_write key l with
    | Some item => Some (JSON_stringify item)
    | None => s !! key
    end.
Proof.
  revert s. induction l as [|[k item] l IH]; intros s; [done|].
  cbn [foldl last_write]. rewrite IH.
  destruct (last_write key l) as [item'|]; [done|].
  unfold Repo.restore_put. cbn [fst snd].
  destruct (String.eqb k key) eqn:E.
  - apply String.eqb_eq in E as ->. apply lookup_insert_eq.
  - apply String.eqb_neq in E. by apply lookup_insert_ne.
Qed.

Lemma last_write_elem key l item : last_write key l = Some item → (key, item) ∈ l.
Proof.
  induction l as [|[k it] l IH]; [done|]. cbn [last_write].
  destruct (last_write key l) as [x|].
  - intros [= ->]. apply elem_of_cons. right. by apply IH.
  - destruct (String.eqb k key) eqn:E; [|done]. apply String.eqb_eq in E as ->.
    intros [= ->]. apply elem_of_cons. by left.
Qed.

Lemma last_write_None_inv key l item : last_write key l = None → (key, item) ∉ l.
Proof.
  induction l as [|[k it] l IH]; [intros _; apply not_elem_of_nil|]. cbn [last_write].
  destruct (last_write key l) as [x|]; [done|].
  destruct (String.eqb k key) eqn:E; [done|]. apply String.eqb_neq in E.
  intros _ [[= -> ->]|Hin]%elem_of_cons; [done|]. by apply IH.
Qed.

Lemma last_write_unique key item l :
  (key, item) ∈ l → (∀ item', (key, item') ∈ l → item' = item) →
  last_write key l = Some item.
Proof.
  intros Hin Hall. destruct (last_write key l) as [item'|] eqn:E.
  - f_equal. by apply Hall, last_write_elem.
  - by apply (last_write_None_inv key l item) in E.
Qed.

Lemma last_write_none key l :
  (∀ item, (key, item) ∉ l) → last_write key l = None.
Proof.
  induction l as [|[k it] l IH]; intros H; [done|]. cbn [last_write].
  rewrite IH by (intros item Hin; apply (H item); set_solver).
  destruct (String.eqb k key) eqn:E; [|done]. apply String.eqb_eq in E as ->.
  exfalso. apply (H it). set_solver.
Qed.

Lemma restored_lookup store key :
  restoreV1 (resolved (backupV1 store)) ∅ !! key =
    match canon store key with
    | Some (_, item) => Some (JSON_stringify item)
    | None => None
    end.
Proof.
  unfold Repo.restoreV1. rewrite restore_last_write, backupV1_spec.
  cbn [resolved channels playlists]. unfold Repo.canon.
  destruct (store !! key) as [text|] eqn:Hk.
  - destruct (record_of text) as [[k item]|] eqn:Hr.
    + rewrite (last_write_unique key item); [done| |].
      * apply elem_of_app. destruct k; [left|right]; apply elem_of_pick;
          exists text; by rewrite elem_of_map_to_list.
      * intros item' [H|H]%elem_of_app; apply elem_of_pick in H as (text' & Hin & Hr');
          apply elem_of_map_to_list in Hin; congruence.
    + rewrite last_write_none; [by rewrite lookup_empty|].
      intros item [H|H]%elem_of_app; apply elem_of_pick in H as (text' & Hin & Hr');
        apply elem_of_map_to_list in Hin; congruence.
  - rewrite last_write_none; [by rewrite lookup_empty|].
    intros item [H|H]%elem_of_app; apply elem_of_pick in H as (text' & Hin & Hr');
      apply elem_of_map_to_list in Hin; congruence.
Qed.

(** A record that is neither a channel nor a playlist is in neither list of the
    payload the promise resolves with; what [next] threw for it is among the
    errors left unhandled. *)
Lemma backup_drops_unknown store key text :
  store !! key = Some text → record_of text = None →
  (∀ item, (key, item) ∉ channels (resolved (backupV1 store))
                         ++ playlists (resolved (backupV1 store))) ∧
  thrown (key, text) ≠ [] ∧
  (∀ e, e ∈ thrown (key, text) → e ∈ unhandled (backupV1 store)).
Proof.
  intros Hk Hr. rewrite backupV1_spec. cbn [resolved unhandled channels playlists].
  split; [|split].
  - intros item [H|H]%elem_of_app; apply elem_of_pick in H as (text' & Hin & Hr');
      apply elem_of_map_to_list in Hin; congruence.
  - unfold Repo.thrown, Repo.backup_next. unfold Repo.record_of, kind_of in Hr.
    destruct (JSON_parse text) as [item|]; [|done].
    destruct (isChannel item) as [[|]|e]; cbn [bind]; [done| |done].
    destruct (isPlaylist item) as [[|]|e]; cbn [bind]; done.
  - intros e He. apply list_elem_of_In, in_concat. exists (thrown (key, text)).
    split; [|by apply list_elem_of_In].
    apply in_map, list_elem_of_In. by apply elem_of_map_to_list.
Qed.



Lemma store_get_sound key d w : store_get key (sound d w) = (Ok (d !! key), sound d w).
Proof. reflexivity. Qed.

Lemma store_put_sound key value d w :
  store_put key value (sound d w) = (Ok tt, sound (<[key := value]> d) (w ++ [(key, value)])).
Proof. reflexivity. Qed.

Lemma put_sound id entity d w :
  Repository_put id entity (sound d w) =
    (Ok entity, sound (<[id := JSON_stringify entity]> d) (w ++ [(id, JSON_stringify entity)])).
Proof. reflexivity. Qed.

Lemma getOrCreate_absent dflt id d w :
  d !! id = None →
  Repository_getOrCreate dflt id (sound d w) =
    (Ok dflt, sound (<[id := JSON_stringify dflt]> d) (w ++ [(id, JSON_stringify dflt)])).
Proof.
  intros H. unfold Repo.Repository_getOrCreate, Repo.Repository_get, mbind.
  rewrite store_get_sound, H. reflexivity.
Qed.

Lemma getOrCreate_present dflt id d w text entity :
  d !! id = Some text → JSON_parse text = Some entity →
  Repository_getOrCreate dflt id (sound d w) = (Ok entity, sound d w).
Proof.
  intros H Hp. unfold Repo.Repository_getOrCreate, Repo.Repository_get, mbind.
  rewrite store_get_sound, H, Hp. reflexivity.
Qed.

Lemma assoc_set_field f v fields : assoc f (set_field f v fields) = Some v.
Proof.
  induction fields as [|[k w] fields IH]; cbn [set_field assoc].
  - by rewrite String.eqb_refl.
  - destruct (String.eqb k f) eqn:E; cbn [assoc]; by rewrite E.
Qed.

Lemma createPlaylist_sound event d w fields old :
  channel_found d event fields old →
  let channel' := JObj (set_field "playlists" (JArr (old ++ [JStr (factory_uuid event)])) fields) in
  createPlaylist event (sound d w) =
    (Ok channel',
     sound (<[message_channelId event := JSON_stringify channel']> d)
           (w ++ channel_writes d event fields old)).
Proof.
  intros H channel'. subst channel'. unfold Repo.channel_found in H. unfold Repo.channel_writes.
  unfold Repo.createPlaylist, mbind at 1.
  destruct (d !! message_channelId event) as [text|] eqn:Hc.
  - destruct H as [Hp Hold].
    rewrite (getOrCreate_present _ _ _ _ text (JObj fields)) by done.
    unfold mbind, lift. cbn [get_prop bind]. rewrite Hold. cbn [spread set_prop].
    by rewrite put_sound.
  - destruct H as [Hf ->]. rewrite getOrCreate_absent by done.
    unfold channel_defaultEntity in Hf. injection Hf as ->.
    unfold mbind, lift, channel_defaultEntity.
    cbn [get_prop bind assoc String.eqb Ascii.eqb Bool.eqb spread set_prop].
    rewrite put_sound, insert_insert_eq. by rewrite <- app_assoc.
Qed.

Lemma snapshot_first event d w q :
  d !! factory_uuid event = None →
  snapshot event q (sound d w) =
    (Ok (snapshot_json event q),
     sound (<[factory_uuid event := JSON_stringify (snapshot_json event q)]> d)
           (w ++ snapshot_writes event true q)).
Proof.
  intros H. unfold Repo.snapshot, mbind at 1.
  rewrite getOrCreate_absent by done.
  unfold mbind, lift. cbn [playlist_defaultEntity set_prop].
  rewrite put_sound. rewrite insert_insert_eq.
  unfold Repo.snapshot_writes. by rewrite <- app_assoc.
Qed.

Lemma snapshot_again event d w q q0 :
  d !! factory_uuid event = Some (JSON_stringify (snapshot_json event q0)) →
  JSON_parse (JSON_stringify (snapshot_json event q0)) = Some (snapshot_json event q0) →
  snapshot event q (sound d w) =
    (Ok (snapshot_json event q),
     sound (<[factory_uuid event := JSON_stringify (snapshot_json event q)]> d)
           (w ++ snapshot_writes event false q)).
Proof.
  intros H Hp. unfold Repo.snapshot, mbind at 1.
  rewrite (getOrCreate_present _ _ _ _ _ _ H Hp).
  unfold mbind, lift. cbn [snapshot_json set_prop].
  by rewrite put_sound.
Qed.


Lemma track_queue_sound event queues d w (first : bool) :
  (if first then d !! factory_uuid event = None
   else ∃ q0, d !! factory_uuid event = Some (JSON_stringify (snapshot_json event q0)) ∧
              reads_back event q0) →
  (∀ q, q ∈ queues → reads_back event q) →
  track_queue event queues (sound d w) =
    ({| emitted := map (fun q => TrackingEvent (snapshot_json event q)) queues;
        terminal := Completed |},
     sound (queue_data event d queues) (w ++ queue_writes event first queues)).
Proof.
  revert d w first. induction queues as [|q rest IH]; intros d w first Hd Hlaw.
  - cbn. by rewrite app_nil_r.
  - cbn [Repo.track_queue].
    assert (E : snapshot event q (sound d w) =
                (Ok (snapshot_json event q),
                 sound (<[factory_uuid event := JSON_stringify (snapshot_json event q)]> d)
                       (w ++ snapshot_writes event first q))).
    { destruct first.
      - by apply snapshot_first.
      - destruct Hd as (q0 & H0 & Hp). by apply (snapshot_again _ _ _ _ q0). }
    rewrite E. rewrite (IH _ _ false).
    + cbn [emitted terminal map queue_writes queue_data foldl]. by rewrite <- app_assoc.
    + exists q. rewrite lookup_insert_eq. split; [done|]. apply Hlaw. set_solver.
    + intros q' Hq'. apply Hlaw. set_solver.
Qed.

Lemma queue_data_other event d queues key :
  key ≠ factory_uuid event → queue_data event d queues !! key = d !! key.
Proof.
  intros Hne. unfold Repo.queue_data. revert d.
  induction queues as [|q rest IH]; intros d; [done|].
  cbn [foldl]. rewrite IH. by apply lookup_insert_ne.
Qed.

Lemma queue_data_last event d queues :
  queue_data event d queues !! factory_uuid event =
    match last queues with
    | Some q => Some (JSON_stringify (snapshot_json event q))
    | None => d !! factory_uuid event
    end.
Proof.
  unfold Repo.queue_data. revert d. induction queues as [|q rest IH]; intros d; [done|].
  cbn [foldl]. rewrite IH. destruct rest as [|q' rest].
  - cbn [last]. apply lookup_insert_eq.
  - change (last (q :: q' :: rest)) with (last (q' :: rest)).
    destruct (last (q' :: rest)) eqn:E; [done|]. by apply last_None in E.
Qed.


(** C7.  Whatever the store does, the observable [trackPlaylist] returns does
    not end in an error: an error of the pipeline is handed to [errorHandler],
    whose results follow those emitted so far.  [errorHandler] is assumed to
    return an observable that completes. *)
Theorem trackPlaylist_never_errors (event : JEvent) (queues : list (list Track)) (st : Store) :
  (∀ e, terminal (errorHandler event e) = Completed) →
  terminal (trackPlaylist event queues st).1 = Completed ∧
  (∀ e, terminal (events event queues st).1 = Errored e →
        emitted (trackPlaylist event queues st).1 =
          emitted (events event queues st).1 ++ emitted (errorHandler event e)) ∧
  (trackPlaylist event queues st).2 = (events event queues st).2.
Proof.
  intros Hh. unfold Repo.trackPlaylist.
  destruct (events event queues st) as [s st1]. cbn [fst snd]. unfold catchError.
  destruct (terminal s) as [|e] eqn:E; cbn [terminal emitted].
  - repeat split; [done|]. intros e H. congruence.
  - repeat split; [apply Hh|]. intros e' [= <-]. done.
Qed.

End WithJSON.
End RepoProofs.

(** * The properties on concrete runs *)

Module HandlerWitnesses.
Import CH.

Lemma one_session_per_channel_witness :
  screen (sample_msg "/skip") = Accepted "c" ∧
  (List.length (live_sessions (run init played).1 "c") ≤ 1)%nat ∧
  (List.length (live_players (run init played).1 "c") ≤ 1)%nat ∧
  step (run init played).1 (Inbound (sample_msg "/skip")) =
    ((run init played).1, [Delivered 0 nextItemInPlaylist PNull]) ∧
  step (step init (Inbound (sample_msg "/play x"))).1 (Inbound (sample_msg "/skip")) =
    ((step init (Inbound (sample_msg "/play x"))).1, []).
Proof.
  split; [reflexivity|].
  destruct (HandlerProofs.one_session_per_channel played "c") as (H1 & H2 & H3 & _).
  specialize (H3 (sample_msg "/skip") eq_refl).
  change (msgObservers (run init played).1 !! "c") with (Some 0%nat) in H3.
  destruct H3 as (s & Hs & _ & _ & H3 & _).
  change (Some sample_session = Some s) in Hs. injection Hs as <-.
  split; [exact H1|]. split; [exact H2|]. split; [exact H3|].
  destruct (HandlerProofs.one_session_per_channel [Inbound (sample_msg "/play x")] "c")
    as (_ & _ & H4 & _).
  specialize (H4 (sample_msg "/skip") eq_refl).
  change (msgObservers (run init [Inbound (sample_msg "/play x")]).1 !! "c")
    with (Some 0%nat) in H4.
  destruct H4 as (s & Hs & _ & _ & H4 & _).
  change (Some (new_session (sample_msg "/play x") "c") = Some s) in Hs.
  injection Hs as <-. exact H4.
Defined.

Lemma command_errors_stay_local_witness :
  (step (run init played).1 (ResolveSettled 0 (Threw "boom"))).2 =
    [LogError "boom"; ChannelSend "t" "Unable to add song to playlist: boom"].
Proof.
  destruct (HandlerProofs.command_errors_stay_local (run init played).1 0
              {| p_sid := 0; p_next := false; p_event := sample_msg "/play x" |}
              sample_session (Threw "boom") "boom" eq_refl eq_refl)
    as (_ & _ & _ & _ & _ & E & _).
  exact E.
Defined.

Lemma disconnect_teardown_order_witness :
  msgObservers (step (run init played).1 (Inbound disconnect_msg)).1 !! "c" = None ∧
  filter (fun e => teardown_step 0 e = true)
    (run (step (run init played).1 (Inbound disconnect_msg)).1
         [Inbound disconnect_msg; PlayerInitResolved 1]).2 = [].
Proof.
  destruct (HandlerProofs.disconnect_teardown_order played
              [Inbound disconnect_msg; PlayerInitResolved 1] 0 sample_session disconnect_msg
              eq_refl eq_refl eq_refl eq_refl eq_refl) as (_ & _ & E1 & _ & E2).
  exact (conj E1 E2).
Defined.

Lemma filtered_messages_are_ignored_witness :
  author_bot bot_msg = true ∧ step init (Inbound bot_msg) = (init, []).
Proof.
  split; [reflexivity|].
  apply HandlerProofs.filtered_messages_are_ignored. left. reflexivity.
Defined.

End HandlerWitnesses.

Module RepoWitnesses.
Import Json Repo.


(** C5.  A backup of a store that holds a channel, a playlist and a lone
    track record: the promise resolves, with the channel and the playlist and
    without the track, and the error thrown for the track is left unhandled. *)
Theorem backup_unknown_record_not_rejected :
  backupV1 MiniJSON.parse Sample.store_with_track =
    {| resolved := {| channels := [("chan-1", JObj Sample.channel_fields)];
                      playlists := [("pl-0", Sample.playlist_record)] |};
       unhandled := [Error "Unknown object: [object Object]"] |}.
Proof. vm_compute. reflexivity. Qed.


Lemma trackPlaylist_never_errors_witness :
  terminal (trackPlaylist MiniJSON.parse MiniJSON.stringify Sample.errorHandler
              Sample.event Sample.queues Sample.failing_store).1 = Completed.
Proof.
  apply (RepoProofs.trackPlaylist_never_errors MiniJSON.parse MiniJSON.stringify
           Sample.errorHandler Sample.event Sample.queues Sample.failing_store).
  intros e. reflexivity.
Defined.

Example tracking_stops_at_the_first_failure :
  (events MiniJSON.parse MiniJSON.stringify Sample.event Sample.queues Sample.failing_store).1
    = {| emitted := []; terminal := Errored (StoreError "put") |} ∧
  (trackPlaylist MiniJSON.parse MiniJSON.stringify Sample.errorHandler
     Sample.event Sample.queues Sample.failing_store).1
    = {| emitted := [HandlerResult "error logged"]; terminal := Completed |} ∧
  writes (trackPlaylist MiniJSON.parse MiniJSON.stringify Sample.errorHandler
            Sample.event Sample.queues Sample.failing_store).2 = [].
Proof. vm_compute. repeat split; reflexivity. Qed.

End RepoWitnesses.

(** * Further properties of the message handler and of seek *)

Module HandlerExtras.
Import CH HandlerProofs.

Lemma settled_handled sid s p o :
  filter (fun e => unhandled e = true) (addItemToQueue_settled sid s p o).2 = [].
Proof.
  unfold addItemToQueue_settled, try_catch, next_add, send.
  destruct o as [it| |e]; destruct (p_next p); case_conditions; reflexivity.
Qed.

Lemma observer_next_handled st sid s v :
  Inv st → subjects st !! sid = Some s → channel_stopped s = false →
  filter (fun e => unhandled e = true) (observer_next st sid s v).2 = [].
Proof.
  intros HI Hs Hl.
  destruct (String.eqb (content v) "/disconnect") eqn:E.
  - apply String.eqb_eq in E. rewrite observer_next_disconnect by done.
    destruct (inv_live _ HI _ _ Hs Hl) as (Hr & Hc & Ho & _).
    by rewrite next_disconnect_live.
  - unfold observer_next. rewrite E.
    repeat match goal with
           | |- context [if ?b then _ else _] => destruct b eqn:?
           end; cbn [fst snd start_resolve];
      unfold emit, send, printHelp; case_conditions; reflexivity.
Qed.

Lemma deliver_handled st sid v :
  Inv st → filter (fun e => unhandled e = true) (deliver st sid v).2 = [].
Proof.
  intros HI. unfold deliver.
  destruct (subjects st !! sid) as [s|] eqn:Hs; [|done].
  destruct (channel_stopped s) eqn:Hl; [done|].
  destruct (phase s); [done|]. destruct (observer_closed s); [done|].
  by apply observer_next_handled.
Qed.

(** When [Player.init] resolves for a session that is still initializing, the
    registry holds that very session for its channel. *)
Lemma resume_finds_own_session st sid s :
  Inv st → subjects st !! sid = Some s → phase s = Initializing →
  msgObservers st !! channelId s = Some sid.
Proof.
  intros HI Hs Hp. destruct (channel_stopped s) eqn:Hl.
  - destruct (inv_torn _ HI _ _ Hs Hl) as (Hw & _). congruence.
  - by destruct (inv_live _ HI _ _ Hs Hl) as (Hr & _).
Qed.

Lemma step_handled st ev :
  Inv st → filter (fun e => unhandled e = true) (step st ev).2 = [].
Proof.
  intros HI. destruct ev as [v|sid|rid o]; cbn [step].
  - unfold initMsgHandler_next. destruct (screen v) as [| |c]; [done|done|].
    destruct (msgObservers st !! c) as [sid|]; [by apply deliver_handled|done].
  - unfold initCmdObserver_resume.
    destruct (subjects st !! sid) as [s|] eqn:Hs; [|done].
    destruct (phase s) eqn:Hp; [|done].
    pose proof (Inv_wire _ _ _ HI Hs Hp) as HI'.
    cbn [set_session with_subjects msgObservers].
    rewrite (resume_finds_own_session st sid s HI Hs Hp).
    by apply deliver_handled.
  - unfold on_resolved.
    destruct (resolving st !! rid) as [[p|]|]; try done.
    destruct (subjects st !! p_sid p) as [s|]; [|done].
    pose proof (settled_handled (p_sid p) s p o) as E1.
    destruct (settled_silent (p_sid p) s p o 0%nat) as [_ E2].
    destruct (addItemToQueue_settled (p_sid p) s p o) as [[|e] effs]; [done|done].
Qed.

(** X1.  Whatever messages and resolver outcomes arrive, and in whatever
    order, the subscriber of [initMsgHandler] never rejects on its own
    account: after the await [msgObservers.get(v.channelId)] is always
    defined, and no command branch throws (errors of the resolver are caught
    inside [addItemToQueue]).  Failures of [Player.init] and of
    [message.channel.send] are not among the events of a run. *)
Theorem no_unhandled_rejection (evs : list Event) :
  filter (fun e => unhandled e = true) (run init evs).2 = [].
Proof.
  assert (H : ∀ st, Inv st → filter (fun e => unhandled e = true) (run st evs).2 = []).
  { induction evs as [|ev evs IH]; intros st HI; [done|]. cbn [run].
    pose proof (Inv_step st ev HI) as HI1. pose proof (step_handled st ev HI) as E1.
    destruct (step st ev) as [st1 e1]. cbn [fst snd] in *.
    specialize (IH st1 HI1). destruct (run st1 evs) as [st2 e2]. cbn [fst snd] in *.
    by rewrite filter_app, E1, IH. }
  apply H, Inv_init.
Qed.

Lemma run_dropped st c sid s vs rest :
  msgObservers st !! c = Some sid → subjects st !! sid = Some s →
  phase s = Initializing → Forall (fun v => screen v = Accepted c) vs →
  run st (map Inbound vs ++ rest) = run st rest.
Proof.
  intros Hr Hs Hp Hvs. induction Hvs as [|v vs Hv _ IH]; [done|].
  cbn [map app run step]. unfold initMsgHandler_next at 1. rewrite Hv, Hr.
  unfold deliver at 1. rewrite Hs, Hp.
  destruct (channel_stopped s); rewrite IH; by destruct (run st rest).
Qed.

(** X2.  While a channel's first message waits for [Player.init], the
    channel's subject is registered and has no subscriber: every further
    message of that channel which arrives before the player is ready is
    dropped.  Once the player is ready only the first message is handled. *)
Theorem commands_during_initialization_are_lost (evs : list Event) (c : string)
    (v1 : Message) (vs : list Message) :
  let st := (run init evs).1 in
  let n := List.length (subjects st) in
  msgObservers st !! c = None → screen v1 = Accepted c →
  Forall (fun v => screen v = Accepted c) vs →
  run st (Inbound v1 :: map Inbound vs ++ [PlayerInitResolved n]) =
  run st [Inbound v1; PlayerInitResolved n].
Proof.
  intros st n Hc Hv1 Hvs. cbn [run step].
  unfold initMsgHandler_next at 1 2. rewrite Hv1, Hc.
  unfold bootstrap. 
  rewrite (run_dropped _ c n (new_session v1 c) vs); [done| | | |done].
  - cbn [msgObservers]. apply lookup_insert_eq.
  - cbn [subjects]. subst n. by rewrite lookup_app_r, Nat.sub_diag.
  - done.
Qed.


Lemma deliver_isolated st c sid v :
  Inv st → msgObservers st !! c = Some sid →
  (∀ c', c' ≠ c → msgObservers (deliver st sid v).1 !! c' = msgObservers st !! c') ∧
  (∀ i s, subjects st !! i = Some s → channelId s ≠ c →
          subjects (deliver st sid v).1 !! i = Some s).
Proof.
  intros HI Hr. destruct (inv_registry _ HI _ _ Hr) as (s0 & Hs0 & Hc0 & Hl0).
  unfold deliver. rewrite Hs0, Hl0.
  destruct (phase s0); [done|]. destruct (observer_closed s0) eqn:Ho; [done|].
  destruct (observer_next_cases st sid s0 v) as [(E1 & E2 & _)|[_ ->]].
  - rewrite E1, E2. done.
  - destruct (inv_live _ HI _ _ Hs0 Hl0) as (Hr0 & Hd & _).
    rewrite next_disconnect_live by done. cbn [fst msgObservers subjects]. split.
    + intros c' Hne. rewrite lookup_delete_ne; [done|]. congruence.
    + intros i s Hs Hne. rewrite list_lookup_insert_ne; [done|].
      intros ->. congruence.
Qed.


(** X4.  A resolver call that settles after its session was torn down has
    no visible effect: the enqueue and the replies go to completed subjects.
    Only [logger.error] of a rejection still happens.  Sessions and registry
    are as before. *)
Theorem late_resolution_is_discarded (evs : list Event) (rid : nat) (p : Pending)
    (s : Session) (it : Item) (e : string) :
  let st := (run init evs).1 in
  resolving st !! rid = Some (Some p) → subjects st !! p_sid p = Some s →
  channel_stopped s = true →
  (step st (ResolveSettled rid (Found it))).2 = [] ∧
  (step st (ResolveSettled rid NotFound)).2 = [] ∧
  (step st (ResolveSettled rid (Threw e))).2 = [LogError e] ∧
  subjects (step st (ResolveSettled rid (Found it))).1 = subjects st ∧
  msgObservers (step st (ResolveSettled rid (Found it))).1 = msgObservers st.
Proof.
  intros st Hr Hs Hstop. assert (HI : Inv st) by apply Inv_run, Inv_init.
  destruct (inv_torn _ HI _ _ Hs Hstop) as (_ & _ & _ & _ & Hall).
  cbn [step]. unfold on_resolved. rewrite Hr, Hs.
  unfold addItemToQueue_settled, try_catch, next_add, send.
  rewrite (Hall sendMessage).
  destruct (p_next p); rewrite ?(Hall addNextItemToQueue), ?(Hall addItemToQueue); done.
Qed.



Import JS SeekProofs.

Lemma split_two a b :
  free_of " " a = true → free_of " " b = true →
  split (a +:+ " " +:+ b) " " = [a; b].
Proof.
  intros Ha Hb. unfold split.
  rewrite (split_go_first " " "" a b "") by done.
  by rewrite split_go_free.
Qed.

Lemma split_three a b c :
  free_of " " a = true → free_of " " b = true → free_of " " c = true →
  split (a +:+ " " +:+ b +:+ " " +:+ c) " " = [a; b; c].
Proof.
  intros Ha Hb Hc. unfold split.
  rewrite (split_go_first " " "" a (b +:+ " " +:+ c) "") by done.
  rewrite (split_go_first " " "" b c "") by done.
  by rewrite split_go_free.
Qed.

Lemma split_one a : free_of " " a = true → split a " " = [a].
Proof. intros Ha. unfold split. by rewrite split_go_free. Qed.

(** X6.  Arguments of [/remove] and [/bass]: [/remove a b] removes from a to
    b, [/remove a] removes a alone ([to] defaults to [from]), and a missing
    number is delivered as NaN, not rejected. *)
Theorem remove_and_bass_arguments (a b : string) (st : State) (sid : nat) (s : Session)
    (v1 v2 v3 v4 v5 : Message) :
  all_digits a = true → all_digits b = true →
  digits_val 0 a ≤ safe → digits_val 0 b ≤ safe →
  is_stopped s removeFromQueue = false → is_stopped s setBassLevel = false →
  content v1 = "/remove " +:+ a +:+ " " +:+ b →
  content v2 = "/remove " +:+ a →
  content v3 = "/remove" →
  content v4 = "/bass " +:+ a →
  content v5 = "/bass" →
  observer_next st sid s v1 =
    (st, [Delivered sid removeFromQueue
            (PRemove (JInt (digits_val 0 a)) (JInt (digits_val 0 b)))]) ∧
  observer_next st sid s v2 =
    (st, [Delivered sid removeFromQueue
            (PRemove (JInt (digits_val 0 a)) (JInt (digits_val 0 a)))]) ∧
  observer_next st sid s v3 = (st, [Delivered sid removeFromQueue (PRemove JNaN JNaN)]) ∧
  observer_next st sid s v4 = (st, [Delivered sid setBassLevel (PNum (JInt (digits_val 0 a)))]) ∧
  observer_next st sid s v5 = (st, [Delivered sid setBassLevel (PNum JNaN)]).
Proof.
  intros Ha Hb Hva Hvb Hr Hbs H1 H2 H3 H4 H5.
  pose proof (digits_free " " a eq_refl Ha) as Fa.
  pose proof (digits_free " " b eq_refl Hb) as Fb.
  repeat split; unfold observer_next, emit.
  - rewrite H1.
    change (startsWith ("/remove " +:+ a +:+ " " +:+ b) "/playnext") with false.
    change (startsWith ("/remove " +:+ a +:+ " " +:+ b) "/play") with false.
    change (String.eqb ("/remove " +:+ a +:+ " " +:+ b) "/help") with false.
    change (startsWith ("/remove " +:+ a +:+ " " +:+ b) "/seek") with false.
    change (String.eqb ("/remove " +:+ a +:+ " " +:+ b) "/skip") with false.
    change (startsWith ("/remove " +:+ a +:+ " " +:+ b) "/bass") with false.
    change (startsWith ("/remove " +:+ a +:+ " " +:+ b) "/remove") with true.
    cbv iota.
    change ("/remove " +:+ a +:+ " " +:+ b) with ("/remove" +:+ " " +:+ a +:+ " " +:+ b).
    rewrite split_three by done. cbn [lookup list_lookup Number].
    by rewrite !Number_digits, Hr by done.
  - rewrite H2.
    change (startsWith ("/remove " +:+ a) "/playnext") with false.
    change (startsWith ("/remove " +:+ a) "/play") with false.
    change (String.eqb ("/remove " +:+ a) "/help") with false.
    change (startsWith ("/remove " +:+ a) "/seek") with false.
    change (String.eqb ("/remove " +:+ a) "/skip") with false.
    change (startsWith ("/remove " +:+ a) "/bass") with false.
    change (startsWith ("/remove " +:+ a) "/remove") with true.
    cbv iota.
    change ("/remove " +:+ a) with ("/remove" +:+ " " +:+ a).
    rewrite split_two by done. cbn [lookup list_lookup Number].
    by rewrite !Number_digits, Hr by done.
  - rewrite H3. cbn. by rewrite Hr.
  - rewrite H4.
    change (startsWith ("/bass " +:+ a) "/playnext") with false.
    change (startsWith ("/bass " +:+ a) "/play") with false.
    change (String.eqb ("/bass " +:+ a) "/help") with false.
    change (startsWith ("/bass " +:+ a) "/seek") with false.
    change (String.eqb ("/bass " +:+ a) "/skip") with false.
    change (startsWith ("/bass " +:+ a) "/bass") with true.
    cbv iota.
    change ("/bass " +:+ a) with ("/bass" +:+ " " +:+ a).
    rewrite split_two by done. cbn [lookup list_lookup Number].
    by rewrite !Number_digits, Hbs by done.
  - rewrite H5. cbn. by rewrite Hbs.
Qed.

(** X7.  [/help], [/skip], [/queue] and [/disconnect] are matched with [===]:
    followed by any further text they are answered as unknown commands. *)
Theorem exact_commands_reject_trailing_text (r : string) (st : State) (sid : nat)
    (s : Session) (v : Message) :
  r ≠ "" →
  content v = "/help" +:+ r ∨ content v = "/skip" +:+ r ∨
  content v = "/queue" +:+ r ∨ content v = "/disconnect" +:+ r →
  observer_next st sid s v =
    (st, send s ("Unknown command: `" +:+ content v +:+
                 "`, type `/help` for available commands.")).
Proof.
  intros Hr Hc. destruct r as [|a r]; [done|].
  unfold observer_next.
  destruct Hc as [ -> | [ -> | [ -> | -> ] ] ]; reflexivity.
Qed.

(** X9.  Only the first two colon-separated fields of a seek argument count:
    [/seek m:s:r] seeks to m*60+s whatever r is, as long as r holds no
    slash.  A content that does not start with [/seek] is not claimed. *)
Theorem seek_ignores_further_fields (m s r : string) :
  all_digits m = true → all_digits s = true → free_of "/" r = true →
  digits_val 0 m * 60 + digits_val 0 s ≤ safe →
  Seek.handleMessage ("/seek " +:+ m +:+ ":" +:+ s +:+ ":" +:+ r) =
    (true, Some (JInt (digits_val 0 m * 60 + digits_val 0 s))) ∧
  ∀ content, startsWith content "/seek" = false →
             Seek.handleMessage content = (false, None).
Proof.
  intros Hm Hs Hr Hle. split.
  - unfold Seek.handleMessage.
    change (startsWith ("/seek " +:+ m +:+ ":" +:+ s +:+ ":" +:+ r) "/seek") with true.
    cbn [negb]. f_equal. unfold Seek.seek_offset.
    pose proof (digits_val_nonneg m 0 Hm ltac:(lia)) as Hm0.
    pose proof (digits_val_nonneg s 0 Hs ltac:(lia)) as Hs0.
    rewrite split_seek.
    2:{ rewrite !free_of_append, (digits_free "/" m), (digits_free "/" s), Hr by done.
        reflexivity. }
    cbn [lookup list_lookup].
    assert (Ht : truthy (Some (m +:+ ":" +:+ s +:+ ":" +:+ r)) = true) by (by destruct m).
    rewrite Ht. cbn [default from_option id]. unfold split.
    rewrite (split_go_first ":" "" m (s +:+ ":" +:+ r) "") by (by apply digits_free).
    rewrite (split_go_first ":" "" s r "") by (by apply digits_free).
    cbn [List.length Nat.ltb Nat.leb lookup list_lookup Number String.rev_app].
    rewrite !Number_digits by (done || lia).
    cbn [mul]. rewrite of_Z_safe by lia. cbn [add]. by rewrite of_Z_safe by lia.
  - intros content H. unfold Seek.handleMessage. by rewrite H.
Qed.

End HandlerExtras.

(** * Further properties of the repository *)

Module RepoExtras.
Import Json Repo Faults.

Section WithJSON.
Variable JSON_parse : string -> option json.
Variable JSON_stringify : json -> string.
Variable errorHandler : JEvent -> JsError -> Stream.

Local Abbreviation backupV1 := (backupV1 JSON_parse).
Local Abbreviation restoreV1 := (restoreV1 JSON_stringify).
Local Abbreviation restore_put := (restore_put JSON_stringify).
Local Abbreviation record_of := (record_of JSON_parse).
Local Abbreviation canon := (canon JSON_parse).
Local Abbreviation pick := (pick JSON_parse).
Local Abbreviation thrown := (thrown JSON_parse).
Local Abbreviation Repository_get := (Repository_get JSON_parse).
Local Abbreviation Repository_put := (Repository_put JSON_stringify).
Local Abbreviation Repository_getOrCreate := (Repository_getOrCreate JSON_parse JSON_stringify).
Local Abbreviation createPlaylist := (createPlaylist JSON_parse JSON_stringify).
Local Abbreviation snapshot := (snapshot JSON_parse JSON_stringify).
Local Abbreviation track_queue := (track_queue JSON_parse JSON_stringify).
Local Abbreviation events := (events JSON_parse JSON_stringify).
Local Abbreviation trackPlaylist := (trackPlaylist JSON_parse JSON_stringify errorHandler).
Local Abbreviation channel_found := (channel_found JSON_parse).
Local Abbreviation queue_data := (queue_data JSON_stringify).
Local Abbreviation reads_back := (reads_back JSON_parse JSON_stringify).

(** Each scanned record goes to exactly one place. *)
Lemma scanned_once kv :
  (List.length (pick KChannel [kv]) + List.length (pick KPlaylist [kv])
   + List.length (thrown kv) = 1)%nat.
Proof.
  destruct kv as [key text].
  unfold Repo.pick, Repo.thrown, Repo.backup_next, Repo.record_of, kind_of.
  cbn [omap list_omap fst snd].
  destruct (JSON_parse text) as [item|]; [|done].
  destruct (isChannel item) as [[|]|e]; cbn [bind]; [done| |done].
  destruct (isPlaylist item) as [[|]|e]; cbn [bind]; done.
Qed.

(** X10.  A backup visits every record of the store exactly once: the
    channels and playlists it returns and the errors it throws add up to the
    number of records. *)
Theorem backup_accounts_for_every_record (store : gmap string string) :
  (List.length (channels (resolved (backupV1 store)))
   + List.length (playlists (resolved (backupV1 store)))
   + List.length (unhandled (backupV1 store)) = size store)%nat.
Proof.
  rewrite RepoProofs.backupV1_spec. cbn [resolved unhandled channels playlists].
  rewrite <- length_map_to_list.
  induction (map_to_list store) as [|kv l IH]; [done|].
  change (kv :: l) with ([kv] ++ l) at 1 2.
  rewrite !RepoProofs.pick_app, !length_app. cbn [map List.concat]. rewrite length_app.
  pose proof (scanned_once kv). cbn [List.length]. lia.
Qed.

Lemma pick_keys k l key :
  key ∈ (pick k l).*1 → key ∈ l.*1.
Proof.
  intros ([key' item] & -> & Hin)%list_elem_of_fmap.
  apply RepoProofs.elem_of_pick in Hin as (text & Hin & _).
  apply list_elem_of_fmap. by exists (key', text).
Qed.

Lemma pick_cons k kv l : pick k (kv :: l) = pick k [kv] ++ pick k l.
Proof. change (kv :: l) with ([kv] ++ l). apply RepoProofs.pick_app. Qed.

Lemma pick_one k kv :
  pick k [kv] = [] ∨ ∃ item, pick k [kv] = [(kv.1, item)] ∧ pick (match k with KChannel => KPlaylist | KPlaylist => KChannel end) [kv] = [].
Proof.
  destruct kv as [key text]. unfold Repo.pick. cbn [omap list_omap fst snd].
  destruct (record_of text) as [[k' item]|]; [|by left].
  destruct k, k'; cbn; eauto.
Qed.

Lemma NoDup_pick l :
  NoDup l.*1 → NoDup (pick KChannel l ++ pick KPlaylist l).*1.
Proof.
  induction l as [|kv l IH]; [done|]. rewrite fmap_cons. intros [Hk Hl]%NoDup_cons.
  specialize (IH Hl). rewrite (pick_cons KChannel kv l), (pick_cons KPlaylist kv l).
  assert (Hfresh : kv.1 ∉ (pick KChannel l ++ pick KPlaylist l).*1).
  { rewrite fmap_app. intros [H|H]%elem_of_app; apply pick_keys in H; done. }
  destruct (pick_one KChannel kv) as [E|(item & E & E')].
  - rewrite E. cbn [app]. destruct (pick_one KPlaylist kv) as [E2|(item & E2 & _)].
    + by rewrite E2.
    + rewrite E2. rewrite fmap_app in *. cbn [app fmap list_fmap].
      apply NoDup_app in IH as (H1 & H2 & H3).
      apply NoDup_app. split; [done|]. split.
      * intros x Hx [->|Hx']%elem_of_cons; [|by eapply H2].
        apply Hfresh. apply elem_of_app. by left.
      * apply NoDup_cons. split; [|done]. intros Hx. apply Hfresh, elem_of_app. by right.
  - rewrite E, E'. cbn [app fmap list_fmap]. apply NoDup_cons. done.
Qed.

(** X11.  No key occurs twice in a backup, and every entry is a record of
    the store filed under its own type. *)
Theorem backup_payload_keys_are_distinct (store : gmap string string) :
  let b := resolved (backupV1 store) in
  NoDup (channels b ++ playlists b).*1 ∧
  (∀ key item, (key, item) ∈ channels b →
     ∃ text, store !! key = Some text ∧ JSON_parse text = Some item ∧
             isChannel item = Ok true) ∧
  (∀ key item, (key, item) ∈ playlists b →
     ∃ text, store !! key = Some text ∧ JSON_parse text = Some item ∧
             isChannel item = Ok false ∧ isPlaylist item = Ok true).
Proof.
  intros b. subst b. rewrite RepoProofs.backupV1_spec. cbn [resolved channels playlists].
  split; [apply NoDup_pick, NoDup_fst_map_to_list|].
  split.
  - intros key item (text & Hin & Hr)%RepoProofs.elem_of_pick.
    apply elem_of_map_to_list in Hin. exists text. split; [done|].
    unfold Repo.record_of, kind_of in Hr.
    destruct (JSON_parse text) as [item'|]; [|done].
    destruct (isChannel item') as [[|]|e] eqn:Ec.
    + by injection Hr as <-.
    + by destruct (isPlaylist item') as [[|]|e'].
    + done.
  - intros key item (text & Hin & Hr)%RepoProofs.elem_of_pick.
    apply elem_of_map_to_list in Hin. exists text. split; [done|].
    unfold Repo.record_of, kind_of in Hr.
    destruct (JSON_parse text) as [item'|]; [|done].
    destruct (isChannel item') as [[|]|e] eqn:Ec; [done| |done].
    destruct (isPlaylist item') as [[|]|e'] eqn:Ep; [|done|done].
    by injection Hr as <-.
Qed.

(** X12.  Restoring the same backup twice is the same as restoring it once,
    and a restore leaves every key the backup does not name as it was. *)
Theorem restore_is_idempotent (backup : BackupV1) (store : gmap string string) :
  restoreV1 backup (restoreV1 backup store) = restoreV1 backup store ∧
  (∀ key, key ∉ (channels backup ++ playlists backup).*1 →
          restoreV1 backup store !! key = store !! key).
Proof.
  split.
  - apply map_eq. intros key. unfold Repo.restoreV1.
    rewrite !RepoProofs.restore_last_write.
    by destruct (last_write key (channels backup ++ playlists backup)).
  - intros key Hk. unfold Repo.restoreV1. apply (RepoProofs.restore_absent JSON_parse).
    intros item Hin. apply Hk. apply list_elem_of_fmap. by exists (key, item).
Qed.

Lemma restored_onto store store0 key :
  restoreV1 (resolved (backupV1 store)) store0 !! key =
    match canon store key with
    | Some (_, item) => Some (JSON_stringify item)
    | None => store0 !! key
    end.
Proof.
  unfold Repo.restoreV1. rewrite RepoProofs.restore_last_write, RepoProofs.backupV1_spec.
  cbn [resolved channels playlists]. unfold Repo.canon.
  destruct (store !! key) as [text|] eqn:Hk.
  - destruct (record_of text) as [[k item]|] eqn:Hr.
    + rewrite (RepoProofs.last_write_unique key item); [done| |].
      * apply elem_of_app. destruct k; [left|right]; apply RepoProofs.elem_of_pick;
          exists text; by rewrite elem_of_map_to_list.
      * intros item' [H|H]%elem_of_app;
          apply RepoProofs.elem_of_pick in H as (text' & Hin & Hr');
          apply elem_of_map_to_list in Hin; congruence.
    + rewrite (RepoProofs.last_write_none JSON_parse JSON_stringify); [done|].
      intros item [H|H]%elem_of_app;
        apply RepoProofs.elem_of_pick in H as (text' & Hin & Hr');
        apply elem_of_map_to_list in Hin; congruence.
  - rewrite (RepoProofs.last_write_none JSON_parse JSON_stringify); [done|].
    intros item [H|H]%elem_of_app;
      apply RepoProofs.elem_of_pick in H as (text' & Hin & Hr');
      apply elem_of_map_to_list in Hin; congruence.
Qed.

(** X13.  Restoring a store's own backup into that store changes no record's
    meaning: every key reads back as the same record, and keys the backup left
    out are untouched. *)
Theorem restore_own_backup_in_place (store : gmap string string) (key : string) :
  (∀ k text item, store !! k = Some text → JSON_parse text = Some item →
                  JSON_parse (JSON_stringify item) = Some item) →
  canon (restoreV1 (resolved (backupV1 store)) store) key = canon store key ∧
  (canon store key = None →
   restoreV1 (resolved (backupV1 store)) store !! key = store !! key).
Proof.
  intros Hlaw. split.
  - unfold Repo.canon at 1. rewrite restored_onto. unfold Repo.canon.
    destruct (store !! key) as [text|] eqn:Hk; [|done].
    destruct (record_of text) as [[k item]|] eqn:Hr; [|by rewrite Hr].
    unfold Repo.record_of in Hr |- *.
    destruct (JSON_parse text) as [item'|] eqn:Hp; [|done].
    destruct (kind_of item') as [k'|] eqn:Hkind; [|done].
    injection Hr as -> ->. by rewrite (Hlaw _ _ _ Hk Hp), Hkind.
  - intros Hn. rewrite restored_onto. by rewrite Hn.
Qed.


(** X14.  [put] then [get] returns the entity put.  [getOrCreate] on an
    absent id stores the default once: a second [getOrCreate], even with a
    different default, returns the first and writes nothing. *)
Theorem repository_round_trip (id : string) (entity dflt dflt' : json)
    (d1 d2 : gmap string string) (w : list (string * string)) :
  JSON_parse (JSON_stringify entity) = Some entity →
  JSON_parse (JSON_stringify dflt) = Some dflt →
  d2 !! id = None →
  (_ <- Repository_put id entity ;; Repository_get id) (sound d1 w) =
    (Ok (Some entity),
     sound (<[id := JSON_stringify entity]> d1) (w ++ [(id, JSON_stringify entity)])) ∧
  (_ <- Repository_getOrCreate dflt id ;; Repository_getOrCreate dflt' id) (sound d2 w) =
    (Ok dflt,
     sound (<[id := JSON_stringify dflt]> d2) (w ++ [(id, JSON_stringify dflt)])).
Proof.
  intros He Hd Hnone. split.
  - unfold mbind at 1. rewrite RepoProofs.put_sound.
    unfold Repo.Repository_get, mbind. rewrite RepoProofs.store_get_sound.
    by rewrite lookup_insert_eq, He.
  - unfold mbind at 1. rewrite RepoProofs.getOrCreate_absent by done.
    rewrite (RepoProofs.getOrCreate_present _ _ _ _ _ _ (JSON_stringify dflt) dflt);
      [done| |done]. apply lookup_insert_eq.
Qed.

Lemma assoc_set_field_ne f g v fields :
  f ≠ g → assoc g (set_field f v fields) = assoc g fields.
Proof.
  intros Hne. induction fields as [|[k x] fields IH]; cbn [set_field assoc].
  - by rewrite (proj2 (String.eqb_neq f g)).
  - destruct (String.eqb k f) eqn:E; cbn [assoc]; [|by rewrite IH].
    apply String.eqb_eq in E as ->. by rewrite (proj2 (String.eqb_neq f g)).
Qed.

Lemma kind_of_set_playlists v fields :
  kind_of (JObj (set_field "playlists" v fields)) = kind_of (JObj fields).
Proof.
  unfold kind_of, isChannel, isPlaylist, has_type. cbn [get_prop bind].
  by rewrite assoc_set_field_ne.
Qed.

Lemma trackPlaylist_sound_run event queues d w fields old :
  message_channelId event ≠ factory_uuid event →
  d !! factory_uuid event = None →
  channel_found d event fields old →
  (∀ q, q ∈ queues → reads_back event q) →
  let channel' :=
    JObj (set_field "playlists" (JArr (old ++ [JStr (factory_uuid event)])) fields) in
  (trackPlaylist event queues (sound d w)).1 =
    {| emitted := TrackingEvent channel'
                  :: map (fun q => TrackingEvent (snapshot_json event q)) queues;
       terminal := Completed |} ∧
  data (trackPlaylist event queues (sound d w)).2 =
    queue_data event (<[message_channelId event := JSON_stringify channel']> d) queues.
Proof.
  intros Hne Hfresh Hchan Hlaw channel'.
  unfold Repo.trackPlaylist, Repo.events, mbind.
  change (persistentString (sound d w)) with (Ok tt, sound d w). cbv beta iota.
  rewrite (RepoProofs.createPlaylist_sound _ _ event d w fields old Hchan).
  rewrite (RepoProofs.track_queue_sound _ _ errorHandler event queues _ _ true).
  - done.
  - by rewrite lookup_insert_ne.
  - done.
Qed.

Lemma thrown_nil kv : record_of kv.2 ≠ None → thrown kv = [].
Proof.
  destruct kv as [key text]. cbn [snd].
  unfold Repo.thrown, Repo.backup_next, Repo.record_of, kind_of.
  destruct (JSON_parse text) as [item|]; [|done].
  destruct (isChannel item) as [[|]|e]; cbn [bind]; [done| |done].
  destruct (isPlaylist item) as [[|]|e]; cbn [bind]; done.
Qed.

Lemma concat_all_nil {A B} (f : A → list B) (l : list A) :
  (∀ x, x ∈ l → f x = []) → List.concat (map f l) = [].
Proof.
  induction l as [|x l IH]; intros H; [done|]. cbn [map List.concat].
  rewrite H by set_solver. rewrite IH; [done|]. intros y Hy. apply H. set_solver.
Qed.

Lemma snapshot_is_playlist event q : kind_of (snapshot_json event q) = Some KPlaylist.
Proof. reflexivity. Qed.


Lemma calm_fixed st : faults st = [] → calm st = st.
Proof.
  destruct st as [d f w]. unfold calm. cbn [faults data writes]. intros Hf. by rewrite Hf.
Qed.

Lemma cut_short_ret {A} (a : A) : cut_short (ret a).
Proof. intros st. split; [split|]; reflexivity. Qed.

Lemma cut_short_raise {A} e : cut_short (@raise A e).
Proof. intros st. split; [split|]; cbn; reflexivity. Qed.

Lemma cut_short_lift {A} (r : Res A) : cut_short (lift r).
Proof. intros st. destruct r; (split; [split|]); cbn; reflexivity. Qed.

Lemma cut_short_bind {A B} (m : M A) (k : A → M B) :
  cut_short m → (∀ a, cut_short (k a)) → cut_short (mbind m k).
Proof.
  intros Hm Hk st. destruct (Hm st) as [[Hf Hw] Hrun]. unfold mbind.
  destruct (m (calm st)) as [[a|e] s1] eqn:Ec; cbn [snd] in Hf, Hw.
  - destruct (Hk a s1) as [[Hf1 Hw1] _]. rewrite (calm_fixed s1 Hf) in Hf1, Hw1.
    split; [split; [done|by etrans]|].
    destruct (m st) as [[a'|e'] st1].
    + injection Hrun as <- ->. destruct (Hk a st1) as [_ Hrun1].
      destruct (k a st1) as [[b|e2] st2]; done.
    + by etrans.
  - split; [done|].
    destruct (m st) as [[a'|e'] st1]; [done|]. done.
Qed.

Lemma cut_short_attempt what : cut_short (attempt what).
Proof.
  intros [d f w]. split; [split; reflexivity|]. unfold attempt. cbn [faults].
  destruct f as [|[|] rest]; cbn; reflexivity.
Qed.

Lemma cut_short_store_get key : cut_short (store_get key).
Proof.
  apply cut_short_bind; [apply cut_short_attempt|]. intros _ [d f w].
  split; [split|]; reflexivity.
Qed.

Lemma cut_short_store_put key value : cut_short (store_put key value).
Proof.
  apply cut_short_bind; [apply cut_short_attempt|]. intros _ [d f w].
  split; [|reflexivity]. split; [reflexivity|]. cbn [calm writes snd data faults].
  by apply prefix_app_r.
Qed.

Lemma cut_short_put id entity : cut_short (Repository_put id entity).
Proof.
  apply cut_short_bind; [apply cut_short_store_put|]. intros _. apply cut_short_ret.
Qed.

Lemma cut_short_get id : cut_short (Repository_get id).
Proof.
  apply cut_short_bind; [apply cut_short_store_get|]. intros [text|]; [|apply cut_short_ret].
  destruct (JSON_parse text); [apply cut_short_ret|apply cut_short_raise].
Qed.

Lemma cut_short_getOrCreate dflt id : cut_short (Repository_getOrCreate dflt id).
Proof.
  apply cut_short_bind; [apply cut_short_get|].
  intros [entity|]; [apply cut_short_ret|apply cut_short_put].
Qed.

Lemma cut_short_createPlaylist event : cut_short (createPlaylist event).
Proof.
  apply cut_short_bind; [apply cut_short_getOrCreate|]. intros channel.
  apply cut_short_bind; [apply cut_short_lift|]. intros old.
  apply cut_short_bind; [apply cut_short_lift|]. intros channel'.
  apply cut_short_put.
Qed.

Lemma cut_short_snapshot event q : cut_short (snapshot event q).
Proof.
  apply cut_short_bind; [apply cut_short_getOrCreate|]. intros queue.
  apply cut_short_bind; [apply cut_short_lift|]. intros queue'.
  apply cut_short_put.
Qed.

Lemma track_queue_grows event queues st :
  faults st = [] →
  faults (track_queue event queues st).2 = [] ∧
  writes st `prefix_of` writes (track_queue event queues st).2.
Proof.
  revert st. induction queues as [|q rest IH]; intros st Hf; [done|].
  cbn [Repo.track_queue].
  destruct (cut_short_snapshot event q st) as [[Hf1 Hw1] _].
  rewrite (calm_fixed st Hf) in Hf1, Hw1.
  destruct (snapshot event q st) as [[item|e] st1]; cbn [snd] in *; [|done].
  destruct (IH st1 Hf1) as [Hf2 Hw2].
  destruct (track_queue event rest st1) as [s st2]. cbn [snd] in *.
  split; [done|by etrans].
Qed.

Lemma track_queue_cut event queues st :
  writes (track_queue event queues st).2
    `prefix_of` writes (track_queue event queues (calm st)).2 ∧
  emitted (track_queue event queues st).1
    `prefix_of` emitted (track_queue event queues (calm st)).1.
Proof.
  revert st. induction queues as [|q rest IH]; intros st; [done|].
  cbn [Repo.track_queue].
  destruct (cut_short_snapshot event q st) as [[Hf Hw] Hrun].
  destruct (snapshot event q st) as [[item|e] st1].
  - rewrite Hrun. destruct (IH st1) as [H1 H2].
    destruct (track_queue event rest st1) as [s st2].
    destruct (track_queue event rest (calm st1)) as [s' st2'].
    cbn [fst snd emitted] in *. split; [done|]. by apply prefix_cons.
  - destruct (snapshot event q (calm st)) as [[item'|e'] st1c]; cbn [snd] in *.
    + destruct (track_queue_grows event rest st1c Hf) as [_ Hg].
      destruct (track_queue event rest st1c) as [s' st2']. cbn [fst snd emitted] in *.
      split; [by etrans|apply prefix_nil].
    + split; [done|apply prefix_nil].
Qed.

(** X18.  A failing store only cuts tracking short, it never makes it write
    something else: the writes of a run under any fault schedule are a prefix
    of the writes of the run without faults, and so are the results emitted
    before the error handler takes over. *)
Theorem store_failures_only_cut_the_run_short (event : JEvent)
    (queues : list (list Track)) (st : Store) :
  writes (trackPlaylist event queues st).2
    `prefix_of` writes (trackPlaylist event queues (calm st)).2 ∧
  emitted (events event queues st).1
    `prefix_of` emitted (events event queues (calm st)).1.
Proof.
  assert (Hcp : cut_short (_ <- persistentString ;; createPlaylist event)).
  { apply cut_short_bind; [apply cut_short_attempt|]. intros _.
    apply cut_short_createPlaylist. }
  unfold Repo.trackPlaylist, Repo.events.
  destruct (Hcp st) as [[Hf Hw] Hrun].
  destruct ((_ <- persistentString ;; createPlaylist event) st) as [[item|e] st1].
  - rewrite Hrun. destruct (track_queue_cut event queues st1) as [H1 H2].
    destruct (track_queue event queues st1) as [s st2].
    destruct (track_queue event queues (calm st1)) as [s' st2'].
    cbn [fst snd emitted] in *. split; [done|]. by apply prefix_cons.
  - destruct ((_ <- persistentString ;; createPlaylist event) (calm st))
      as [[item'|e'] st1c]; cbn [snd] in *.
    + destruct (track_queue_grows event queues st1c Hf) as [_ Hg].
      destruct (track_queue event queues st1c) as [s' st2']. cbn [fst snd emitted] in *.
      split; [by etrans|apply prefix_nil].
    + split; [done|apply prefix_nil].
Qed.

End WithJSON.
End RepoExtras.

(** * Properties of the result mixin *)

Module ResultExtras.
Import Rx ResultMixin.

Section WithBase.
Variables JEvent ResultResult Item Err : Type.
Variable this_event : JEvent.

Local Abbreviation R := (Result JEvent ResultResult Item).
Local Abbreviation complexResult := (complexResult JEvent ResultResult Item Err this_event).
Local Abbreviation result := (result JEvent ResultResult Item Err this_event).

Lemma fold_concat_complete (acc : Obs R Err) (l : list (Obs R Err)) :
  ending acc = Complete → Forall (fun o => completes o = true) l →
  foldl (fun acc curr => concat acc curr) acc l =
    {| values := values acc ++ List.concat (map values l); ending := Complete |}.
Proof.
  intros Hacc Hl. revert acc Hacc. induction Hl as [|o l Ho _ IH]; intros acc Hacc.
  - destruct acc as [vs e]. cbn [ending values foldl map List.concat] in *. subst e.
    by rewrite app_nil_r.
  - cbn [foldl map List.concat]. unfold completes in Ho.
    rewrite IH.
    + unfold concat. rewrite Hacc. cbn [values]. by rewrite app_assoc.
    + unfold concat. rewrite Hacc. cbn [ending]. by destruct (ending o).
Qed.

Lemma fold_concat_stuck (acc : Obs R Err) (l : list (Obs R Err)) :
  completes acc = false → foldl (fun acc curr => concat acc curr) acc l = acc.
Proof.
  intros Hacc. induction l as [|o l IH]; [done|]. cbn [foldl].
  assert (E : concat acc o = acc).
  { unfold concat. unfold completes in Hacc. by destruct (ending acc). }
  by rewrite E.
Qed.

(** X19.  [complexResult] emits the result itself first, tagged with the
    event, and then the values of the continuations in argument order, when
    each of them completes; [result] is the same with no item. *)
Theorem complexResult_runs_continuations_in_order (r : ResultResult) (i : option Item)
    (andThen : list (Obs R Err)) :
  Forall (fun o => completes o = true) andThen →
  complexResult r i andThen =
    {| values := {| result_ := r; item := i; event := this_event |}
                 :: List.concat (map values andThen);
       ending := Complete |} ∧
  result r andThen =
    {| values := {| result_ := r; item := None; event := this_event |}
                 :: List.concat (map values andThen);
       ending := Complete |}.
Proof.
  intros H. unfold ResultMixin.result, ResultMixin.complexResult.
  split; (rewrite fold_concat_complete; [reflexivity|reflexivity|done]).
Qed.

(** X20.  [complexResult] stops at the first continuation that does not
    complete: its values are the last ones emitted, the whole observable ends
    the way it ends, and the continuations after it are never subscribed. *)
Theorem complexResult_stops_at_first_unfinished (r : ResultResult) (i : option Item)
    (before after : list (Obs R Err)) (stuck : Obs R Err) :
  Forall (fun o => completes o = true) before → completes stuck = false →
  complexResult r i (before ++ stuck :: after) =
    {| values := {| result_ := r; item := i; event := this_event |}
                 :: List.concat (map values before) ++ values stuck;
       ending := ending stuck |}.
Proof.
  intros Hb Hs. unfold ResultMixin.complexResult.
  rewrite foldl_app.
  rewrite (fold_concat_complete (of_ {| result_ := r; item := i; event := this_event |})
             before eq_refl Hb).
  cbn [foldl]. rewrite fold_concat_stuck.
  - unfold concat. cbn [ending values of_]. by rewrite app_comm_cons.
  - unfold concat, completes in *. cbn [ending]. by destruct (ending stuck).
Qed.

End WithBase.
End ResultExtras.

(** * The further properties at concrete inputs *)

Module HandlerExtraWitnesses.
Import CH Scenario.

Lemma commands_during_initialization_are_lost_witness :
  msgObservers init !! "c" = None ∧
  run init (Inbound (sample_msg "/play x")
            :: map Inbound [sample_msg "/skip"; sample_msg "/queue"]
            ++ [PlayerInitResolved 0]) =
  run init [Inbound (sample_msg "/play x"); PlayerInitResolved 0].
Proof.
  split; [reflexivity|].
  apply (HandlerExtras.commands_during_initialization_are_lost [] "c"
           (sample_msg "/play x") [sample_msg "/skip"; sample_msg "/queue"]).
  - reflexivity.
  - reflexivity.
  - repeat constructor.
Defined.


Lemma late_resolution_is_discarded_witness :
  channel_stopped (tear sample_session) = true ∧
  (step (run init torn_run).1 (ResolveSettled 0 (Found sample_item))).2 = [] ∧
  (step (run init torn_run).1 (ResolveSettled 0 (Threw "boom"))).2 = [LogError "boom"].
Proof.
  split; [reflexivity|].
  destruct (HandlerExtras.late_resolution_is_discarded torn_run 0 first_call
              (tear sample_session) sample_item "boom" eq_refl eq_refl eq_refl)
    as (E1 & _ & E3 & _).
  exact (conj E1 E3).
Defined.


Lemma remove_and_bass_arguments_witness :
  observer_next init 0 sample_session (sample_msg "/remove 2 4") =
    (init, [Delivered 0 removeFromQueue (PRemove (JS.JInt 2) (JS.JInt 4))]) ∧
  observer_next init 0 sample_session (sample_msg "/remove 2") =
    (init, [Delivered 0 removeFromQueue (PRemove (JS.JInt 2) (JS.JInt 2))]) ∧
  observer_next init 0 sample_session (sample_msg "/bass") =
    (init, [Delivered 0 setBassLevel (PNum JS.JNaN)]).
Proof.
  destruct (HandlerExtras.remove_and_bass_arguments "2" "4" init 0 sample_session
              (sample_msg "/remove 2 4") (sample_msg "/remove 2") (sample_msg "/remove")
              (sample_msg "/bass 2") (sample_msg "/bass")
              eq_refl eq_refl ltac:(vm_compute; discriminate) ltac:(vm_compute; discriminate)
              eq_refl eq_refl eq_refl eq_refl eq_refl eq_refl eq_refl)
    as (E1 & E2 & _ & _ & E5).
  exact (conj E1 (conj E2 E5)).
Defined.

Lemma exact_commands_reject_trailing_text_witness :
  observer_next init 0 sample_session (sample_msg "/disconnect now") =
    (init, [ChannelSend "t"
              "Unknown command: `/disconnect now`, type `/help` for available commands."]).
Proof.
  apply (HandlerExtras.exact_commands_reject_trailing_text " now" init 0 sample_session
           (sample_msg "/disconnect now")).
  - discriminate.
  - right. right. right. reflexivity.
Defined.

Lemma seek_ignores_further_fields_witness :
  Seek.handleMessage "/seek 1:30:15" = (true, Some (JS.JInt 90)) ∧
  Seek.handleMessage "/skip" = (false, None).
Proof.
  destruct (HandlerExtras.seek_ignores_further_fields "1" "30" "15"
              eq_refl eq_refl eq_refl ltac:(vm_compute; discriminate)) as [E1 E2].
  split; [exact E1|].
  apply E2. reflexivity.
Defined.

End HandlerExtraWitnesses.

Module RepoExtraWitnesses.
Import Json Repo.

Lemma sample_store_law k text item :
  Sample.store_with_track !! k = Some text → MiniJSON.parse text = Some item →
  MiniJSON.parse (MiniJSON.stringify item) = Some item.
Proof.
  unfold Sample.store_with_track, Sample.store. intros Hk Hp.
  apply lookup_insert_Some in Hk as [[_ <-]|[_ Hk]].
  { vm_compute in Hp. injection Hp as <-. vm_compute. reflexivity. }
  apply lookup_insert_Some in Hk as [[_ <-]|[_ Hk]].
  { vm_compute in Hp. injection Hp as <-. vm_compute. reflexivity. }
  apply lookup_insert_Some in Hk as [[_ <-]|[_ Hk]].
  { vm_compute in Hp. injection Hp as <-. vm_compute. reflexivity. }
  by rewrite lookup_empty in Hk.
Defined.

Lemma sample_store_records key text :
  Sample.store !! key = Some text → record_of MiniJSON.parse text ≠ None.
Proof.
  unfold Sample.store. intros Hk.
  apply lookup_insert_Some in Hk as [[_ <-]|[_ Hk]].
  { vm_compute. discriminate. }
  apply lookup_insert_Some in Hk as [[_ <-]|[_ Hk]].
  { vm_compute. discriminate. }
  by rewrite lookup_empty in Hk.
Defined.

Lemma backup_payload_keys_are_distinct_witness :
  ∃ text, Sample.store_with_track !! "chan-1" = Some text ∧
          MiniJSON.parse text = Some (JObj Sample.channel_fields) ∧
          isChannel (JObj Sample.channel_fields) = Ok true.
Proof.
  destruct (RepoExtras.backup_payload_keys_are_distinct MiniJSON.parse
              Sample.store_with_track) as (_ & H & _).
  apply H. vm_compute. apply elem_of_cons. left. reflexivity.
Defined.

Lemma restore_is_idempotent_witness :
  restoreV1 MiniJSON.stringify
    {| channels := [("chan-1", JObj Sample.channel_fields)]; playlists := [] |}
    Sample.store !! "pl-0" = Sample.store !! "pl-0".
Proof.
  destruct (RepoExtras.restore_is_idempotent MiniJSON.parse MiniJSON.stringify
              {| channels := [("chan-1", JObj Sample.channel_fields)]; playlists := [] |}
              Sample.store) as [_ H].
  apply H. cbn. intros Hin. apply elem_of_cons in Hin as [Hin|Hin]; [discriminate|].
  by apply elem_of_nil in Hin.
Defined.

Lemma restore_own_backup_in_place_witness :
  canon MiniJSON.parse
    (restoreV1 MiniJSON.stringify
       (resolved (backupV1 MiniJSON.parse Sample.store_with_track))
       Sample.store_with_track) "chan-1" =
  Some (KChannel, JObj Sample.channel_fields).
Proof.
  destruct (RepoExtras.restore_own_backup_in_place MiniJSON.parse MiniJSON.stringify
              Sample.store_with_track "chan-1" sample_store_law) as [E _].
  rewrite E. vm_compute. reflexivity.
Defined.

Lemma repository_round_trip_witness :
  (_ <- Repository_put MiniJSON.stringify "pl-9" Sample.playlist_record ;;
   Repository_get MiniJSON.parse "pl-9") (sound Sample.store []) =
    (Ok (Some Sample.playlist_record),
     sound (<["pl-9" := MiniJSON.stringify Sample.playlist_record]> Sample.store)
       [("pl-9", MiniJSON.stringify Sample.playlist_record)]).
Proof.
  destruct (RepoExtras.repository_round_trip MiniJSON.parse MiniJSON.stringify "pl-9"
              Sample.playlist_record channel_defaultEntity (playlist_defaultEntity Sample.event)
              Sample.store Sample.store []
              ltac:(vm_compute; reflexivity) ltac:(vm_compute; reflexivity)
              ltac:(vm_compute; reflexivity)) as [E _].
  exact E.
Defined.


End RepoExtraWitnesses.

Module ResultExtraWitnesses.
Import Rx ResultMixin ResultSample.

Lemma complexResult_runs_continuations_in_order_witness :
  values (complexResult string string nat string "ev" "played" (Some 7%nat)
            [found; queued]) =
    [ {| result_ := "played"; item := Some 7%nat; event := "ev" |};
      {| result_ := "found"; item := None; event := "ev" |};
      {| result_ := "queued"; item := None; event := "ev" |} ].
Proof.
  destruct (ResultExtras.complexResult_runs_continuations_in_order
              string string nat string "ev" "played" (Some 7%nat) [found; queued]
              ltac:(repeat constructor)) as [E _].
  rewrite E. reflexivity.
Defined.

Lemma complexResult_stops_at_first_unfinished_witness :
  complexResult string string nat string "ev" "played" (Some 7%nat)
    ([found] ++ failing :: [queued]) =
    {| values := [ {| result_ := "played"; item := Some 7%nat; event := "ev" |};
                   {| result_ := "found"; item := None; event := "ev" |} ];
       ending := Fails "boom" |}.
Proof.
  exact (ResultExtras.complexResult_stops_at_first_unfinished
           string string nat string "ev" "played" (Some 7%nat)
           [found] [queued] failing ltac:(repeat constructor) eq_refl).
Defined.

End ResultExtraWitnesses.
